(** * Option Strategy Simulator: pricing primitive and scenario projector

    A shallow embedding of [utils/blackScholes.js] and of the simulation
    effect of [src/App.jsx].  JavaScript numbers are idealised as real
    numbers: [Math.log], [Math.exp] and [Math.sqrt] are [ln], [exp] and
    [sqrt], and the comparison operators are the decidable order of [R].
    Two limits of that reading are kept in view.  Where the source compares
    with a rounded value, the threshold of the volatility check, the
    rounding is modelled ([Double]).  Where the source leaves the finite
    numbers, in the quotient of [d1] by a zero [sigma * Math.sqrt(T)], no
    real number stands for its result, and the statements on prices carry
    the hypotheses that keep the quotient finite. *)

From Stdlib Require Import Reals Lra Lia ZArith List String Ascii Bool.
From Stdlib Require Import DecimalString.
From Stdlib Require Import Sorting.Sorted Sorting.Permutation.
Import ListNotations.

Open Scope string_scope.
Open Scope R_scope.

(** ** Comparisons of JavaScript numbers *)

Definition Rleb (x y : R) : bool := if Rle_dec x y then true else false.
Definition Rltb (x y : R) : bool := if Rlt_dec x y then true else false.
Definition Reqb (x y : R) : bool := if Req_dec_T x y then true else false.

(** ** Double-precision subtraction

    The one place where a comparison of the source sits on a rounded
    difference is the threshold [opt.iv - 0.1] of the volatility check: it is
    modelled as the source computes it, by rounding to the nearest double
    (53-bit significand, ties to even, gradual underflow; a result beyond the
    largest double does not arise from volatilities). *)

Module Double.

(** The exponent of the binade of [x]: [floor (log2 |x|)], at least -1022. *)
Definition exponent (x : R) : Z :=
  Z.max (-1022) (Int_part (ln (Rabs x) / ln 2)).

(** The spacing of the doubles around [x]. *)
Definition ulp (x : R) : R := powerRZ 2 (exponent x - 52).

(** The integer nearest to [r], the even one of two that are as near. *)
Definition nearestEven (r : R) : Z :=
  let n := Int_part r in
  let f := r - IZR n in
  if Rltb f (/ 2) then n
  else if Rltb (/ 2) f then (n + 1)%Z
  else if Z.even n then n else (n + 1)%Z.

Definition round (x : R) : R :=
  if Reqb x 0 then 0 else IZR (nearestEven (x / ulp x)) * ulp x.

(** [a - b] on doubles. *)
Definition sub (a b : R) : R := round (a - b).

(** The double written [0.1], the one nearest to a tenth:
    [3602879701896397 / 2^55]. *)
Definition tenth : R := 3602879701896397 / 36028797018963968.

End Double.

(** ** The pricing primitive ([utils/blackScholes.js]) *)

Module BlackScholes.

(** Constants of Abramowitz and Stegun's formula 7.1.26, as in [erf]. *)
Definition a1 : R := 0.254829592.
Definition a2 : R := -0.284496736.
Definition a3 : R := 1.421413741.
Definition a4 : R := -1.453152027.
Definition a5 : R := 1.061405429.
Definition p : R := 0.3275911.

(** [var sign = (x >= 0) ? 1 : -1]. *)
Definition sign (x : R) : R := if Rleb 0 x then 1 else -1.

(** The polynomial factor of [y], in the source's Horner form. *)
Definition horner (t : R) : R :=
  (((((a5 * t + a4) * t) + a3) * t + a2) * t + a1) * t.

(** The value of [y] in [erf], for the absolute value [x] of the argument. *)
Definition y (x : R) : R :=
  let t := 1 / (1 + p * x) in
  1 - horner t * exp (- x * x).

(** [function erf(x)]: the argument is replaced by its absolute value after
    the sign has been saved. *)
Definition erf (x0 : R) : R :=
  let sign := sign x0 in
  let x := Rabs x0 in
  sign * y x.

(** [function standardNormalCDF(x)]. *)
Definition standardNormalCDF (x : R) : R :=
  (1 + erf (x / sqrt 2)) / 2.

(** The constants [d1] and [d2] of [blackScholesCall].  The source divides
    by [sigma * Math.sqrt(T)], which is not zero when [sigma > 0] and
    [T > 0]; where it is zero the source yields an infinity or NaN, which
    no real number stands for, so every bound on a price below is stated
    for a positive volatility. *)
Definition d1 (S K T r sigma : R) : R :=
  (ln (S / K) + (r + 0.5 * sigma ^ 2) * T) / (sigma * sqrt T).

Definition d2 (S K T r sigma : R) : R :=
  d1 S K T r sigma - sigma * sqrt T.

(** [export function blackScholesCall(S, K, T, r, sigma)]. *)
Definition blackScholesCall (S K T r sigma : R) : R :=
  if Rleb T 0 then Rmax 0 (S - K)
  else
    S * standardNormalCDF (d1 S K T r sigma)
    - K * exp (- r * T) * standardNormalCDF (d2 S K T r sigma).

End BlackScholes.

(** ** The scenario projector ([src/App.jsx]) *)

Module App.

(** A property value of a chart point: a string or a number. *)
Inductive jsval : Type :=
  | VStr (s : string)
  | VNum (x : R).

(** A JavaScript object with string keys, in insertion order (no key of a
    chart point is an array index): an assignment to an existing key
    replaces its value in place, an assignment to a new key appends the
    property. *)
Definition obj : Type := list (string * jsval).

Fixpoint obj_set (k : string) (v : jsval) (o : obj) : obj :=
  match o with
  | [] => [(k, v)]
  | (k', v') :: o' =>
      if String.eqb k' k then (k', v) :: o' else (k', v') :: obj_set k v o'
  end.

Fixpoint obj_get (k : string) (o : obj) : option jsval :=
  match o with
  | [] => None
  | (k', v') :: o' => if String.eqb k' k then Some v' else obj_get k o'
  end.

Definition obj_keys (o : obj) : list string := map fst o.

(** The keys of an object after assignments to the keys [ks], in order. *)
Definition addKey (keys : list string) (k : string) : list string :=
  if existsb (String.eqb k) keys then keys else (keys ++ [k])%list.

Definition keysAfter (keys ks : list string) : list string :=
  fold_left addKey ks keys.

(** The last character of a string. *)
Fixpoint last_char (s : string) : option ascii :=
  match s with
  | EmptyString => None
  | String c EmptyString => Some c
  | String c s' => last_char s'
  end.

(** [config], with the fields of [DEFAULT_CONFIG]. *)
Record config : Type := {
  CURRENT_PRICE : R;
  TARGET_PRICE : R;
  RISK_FREE_RATE : R;
  DAYS_TO_EXPIRY : R
}.

(** An element of [options], with the fields of [DEFAULT_OPTIONS].  The
    field [target_iv] is the empty string (here [None]) until a number is
    entered: [handleOptionChange] stores the empty string for an empty
    input and [parseFloat(value)] otherwise. *)
Record contract : Type := {
  id : Z;
  type : string;
  strike : R;
  ask : R;
  iv : R;
  target_iv : option R;
  delta : R;
  gamma : R;
  theta : R
}.

(** An element of [dayResult.details]: its fields [type], [strike], [roi]
    and [profit]. *)
Record detail : Type := {
  d_type : string;
  d_strike : R;
  d_roi : string;
  d_profit : string
}.

(** [dayResult]. *)
Record dayResult : Type := {
  day : string;
  details : list detail
}.

(** The three pieces of state set by [calculateProjections]:
    [setChartData], [setGroupedResults] and [setIsIvCrush]. *)
Record projections : Type := {
  chartData : list obj;
  groupedResults : list dayResult;
  isIvCrush : bool
}.

(** [DEFAULT_CONFIG] and [DEFAULT_OPTIONS]. *)
Definition DEFAULT_CONFIG : config :=
  {| CURRENT_PRICE := 340; TARGET_PRICE := 360;
     RISK_FREE_RATE := 0.045; DAYS_TO_EXPIRY := 365 |}.

(** The default configuration with 20 days to expiry. *)
Definition shortConfig : config :=
  {| CURRENT_PRICE := 340; TARGET_PRICE := 360;
     RISK_FREE_RATE := 0.045; DAYS_TO_EXPIRY := 20 |}.

Definition deepItmCall : contract :=
  {| id := 1; type := "Deep ITM Call"; strike := 270; ask := 126.75;
     iv := 0.6845; target_iv := None;
     delta := 0.7745; gamma := 0.0013; theta := -0.1102 |}.

Definition atmCall : contract :=
  {| id := 2; type := "ATM Call"; strike := 340; ask := 98.77;
     iv := 0.6737; target_iv := None;
     delta := 0.6608; gamma := 0.0016; theta := -0.1288 |}.

Definition deepOtmCall : contract :=
  {| id := 3; type := "Deep OTM Call"; strike := 420; ask := 71.70;
     iv := 0.6736; target_iv := None;
     delta := 0.5409; gamma := 0.0017; theta := -0.137 |}.

Definition DEFAULT_OPTIONS : list contract :=
  [deepItmCall; atmCall; deepOtmCall].

(** The update of one contract by [handleOptionChange(id, 'target_iv', value)]:
    [None] for the empty input, [Some x] for the input that parses to [x]. *)
Definition setTargetIv (v : option R) (opt : contract) : contract :=
  {| id := id opt; type := type opt; strike := strike opt; ask := ask opt;
     iv := iv opt; target_iv := v;
     delta := delta opt; gamma := gamma opt; theta := theta opt |}.

(** A call whose volatility is expected to fall from 0.60 to 0.45. *)
Definition crushedCall : contract :=
  {| id := 4; type := "ATM Call"; strike := 340; ask := 98.77;
     iv := 0.60; target_iv := Some 0.45;
     delta := 0.6608; gamma := 0.0016; theta := -0.1288 |}.

(** [ToBoolean] of a [target_iv]: the empty string and the number 0 are
    falsy, every other number is truthy. *)
Definition truthy (v : option R) : bool :=
  match v with
  | None => false
  | Some x => negb (Reqb x 0)
  end.

(** [[...options].sort((a, b) => a.strike - b.strike)]: [Array.prototype.sort]
    is stable, and an element moves in front of another only when the
    comparator is positive for the pair in their current order. *)
Fixpoint insert (a : contract) (l : list contract) : list contract :=
  match l with
  | [] => [a]
  | b :: l' =>
      if Rltb 0 (strike a - strike b) then b :: insert a l' else a :: b :: l'
  end.

Definition sortedOptions (options : list contract) : list contract :=
  fold_right insert [] options.

(** The order of the sort, and the test of a strike. *)
Definition strikeLe (a b : contract) : Prop := strike a <= strike b.

Definition hasStrike (s : R) (opt : contract) : bool := Reqb (strike opt) s.

(** The threshold [opt.iv - 0.1], a difference of doubles. *)
Definition crushThreshold (opt : contract) : R :=
  Double.sub (iv opt) Double.tenth.

(** [opt.target_iv && opt.target_iv < opt.iv - 0.1], as [some] reads it. *)
Definition crushCondition (opt : contract) : bool :=
  match target_iv opt with
  | None => false
  | Some x => truthy (Some x) && Rltb x (crushThreshold opt)
  end.

Definition crushDetected (sorted : list contract) : bool :=
  existsb crushCondition sorted.

(** The literal array of scenario days. *)
Definition scenarioDays : list Z :=
  [30; 60; 90; 120; 150; 180; 210; 240; 270; 300; 330; 360]%Z.

Definition scenarios (cfg : config) : list Z :=
  filter (fun day => Rleb (IZR day) (DAYS_TO_EXPIRY cfg)) scenarioDays.

Definition daysRemaining (cfg : config) (day : Z) : R :=
  Rmax (DAYS_TO_EXPIRY cfg - IZR day) 0.

Definition yearsRemaining (cfg : config) (day : Z) : R :=
  Rmax (daysRemaining cfg day / 365.0) 0.0001.

Definition simulatedPrice (cfg : config) : R := TARGET_PRICE cfg.

(** [const targetIv = opt.target_iv || opt.iv]. *)
Definition targetIv (opt : contract) : R :=
  match target_iv opt with
  | Some x => if truthy (Some x) then x else iv opt
  | None => iv opt
  end.

Definition estPrice (cfg : config) (day : Z) (opt : contract) : R :=
  BlackScholes.blackScholesCall
    (simulatedPrice cfg) (strike opt) (yearsRemaining cfg day)
    (RISK_FREE_RATE cfg) (targetIv opt).

Definition cost (opt : contract) : R := ask opt.

Definition profit (cfg : config) (day : Z) (opt : contract) : R :=
  estPrice cfg day opt - cost opt.

Definition roi (cfg : config) (day : Z) (opt : contract) : R :=
  if Rltb 0 (cost opt) then (profit cfg day opt / cost opt) * 100 else 0.

(** Decimal digits of a non-negative integer. *)
Definition digits (n : Z) : string :=
  NilZero.string_of_uint (N.to_uint (Z.to_N n)).

(** [`Day ${day}`]. *)
Definition dayLabel (d : Z) : string := "Day " ++ digits d.

(** The digits of [n / 100] with two fraction digits, after the sign. *)
Definition fixed2 (neg : bool) (n : Z) : string :=
  (if neg then "-" else EmptyString) ++ digits (n / 100)%Z ++ "."
    ++ digits (n / 10 mod 10)%Z ++ digits (n mod 10)%Z.

(** A rendering of numbers that agrees with [Number::toString] on the
    non-negative integers below [10^21], for use in examples. *)
Definition integerToString (x : R) : string := digits (Int_part x).

Section Rendering.

(** [Number::toString], the rendering of a number in a template literal and
    of the large arguments of [toFixed]. *)
Variable numberToString : R -> string.

(** [Number.prototype.toFixed] with two fraction digits: below [10^21] the
    integer [n] for which [n / 100] is nearest to the absolute value (the
    larger one when two are as near), written with a point before its last
    two digits, after a minus sign when the number is negative. *)
Definition toFixed2 (x0 : R) : string :=
  let neg := Rltb x0 0 in
  let x := if neg then - x0 else x0 in
  if Rleb (10 ^ 21) x then (if neg then "-" else EmptyString) ++ numberToString x
  else fixed2 neg (Int_part (x * 100 + / 2)).

(** [`${opt.type} ($${opt.strike})`]. *)
Definition chartKey (opt : contract) : string :=
  type opt ++ " ($" ++ numberToString (strike opt) ++ ")".

(** The last contract of a list whose chart key is [k]. *)
Fixpoint lastWithKey (k : string) (l : list contract) : option contract :=
  match l with
  | [] => None
  | o :: l' =>
      match lastWithKey k l' with
      | Some o' => Some o'
      | None => if String.eqb (chartKey o) k then Some o else None
      end
  end.

(** The record pushed on [dayResult.details] for one contract. *)
Definition detailOf (cfg : config) (d : Z) (opt : contract) : detail :=
  {| d_type := type opt; d_strike := strike opt;
     d_roi := toFixed2 (roi cfg d opt);
     d_profit := toFixed2 (profit cfg d opt) |}.

(** The body of [sortedOptions.forEach], on the pair of [chartPoint] and
    [dayResult.details]. *)
Definition optionStep (cfg : config) (d : Z)
    (st : obj * list detail) (opt : contract) : obj * list detail :=
  let '(chartPoint, dets) := st in
  (obj_set (chartKey opt) (VStr (toFixed2 (roi cfg d opt))) chartPoint,
   (dets ++ [detailOf cfg d opt])%list).

(** The chart point after the inner loop, by itself. *)
Definition chartFields (cfg : config) (d : Z)
    (sorted : list contract) (cp : obj) : obj :=
  fold_left
    (fun cp opt => obj_set (chartKey opt) (VStr (toFixed2 (roi cfg d opt))) cp)
    sorted cp.

(** The body of [scenarios.forEach]: the chart point and the day result
    pushed for one scenario day. *)
Definition scenarioStep (cfg : config) (sorted : list contract) (d : Z)
    : obj * dayResult :=
  let chartPoint : obj :=
    [ ("name", VStr (dayLabel d)); ("price", VNum (simulatedPrice cfg)) ] in
  let '(chartPoint', dets) :=
    fold_left (optionStep cfg d) sorted (chartPoint, []) in
  (chartPoint', {| day := dayLabel d; details := dets |}).

(** [calculateProjections], on the memoised [sortedOptions]. *)
Definition calculateProjections (cfg : config) (sorted : list contract)
    : projections :=
  let steps := map (scenarioStep cfg sorted) (scenarios cfg) in
  {| chartData := map fst steps;
     groupedResults := map snd steps;
     isIvCrush := crushDetected sorted |}.

(** The effect as the component runs it: [options] are sorted, then
    projected. *)
Definition simulate (cfg : config) (options : list contract) : projections :=
  calculateProjections cfg (sortedOptions options).


End Rendering.

Section Handlers.

(** [parseFloat], on the text of a number input. *)
Variable parseFloat : string -> R.

(** [handleConfigChange], on the [name] and [value] of [e.target]: the four
    inputs are named after the four fields; another name would add a
    property that nothing reads. *)
Definition handleConfigChange (name value : string) (prev : config) : config :=
  let v := parseFloat value in
  if String.eqb name "CURRENT_PRICE" then
    {| CURRENT_PRICE := v; TARGET_PRICE := TARGET_PRICE prev;
       RISK_FREE_RATE := RISK_FREE_RATE prev;
       DAYS_TO_EXPIRY := DAYS_TO_EXPIRY prev |}
  else if String.eqb name "TARGET_PRICE" then
    {| CURRENT_PRICE := CURRENT_PRICE prev; TARGET_PRICE := v;
       RISK_FREE_RATE := RISK_FREE_RATE prev;
       DAYS_TO_EXPIRY := DAYS_TO_EXPIRY prev |}
  else if String.eqb name "RISK_FREE_RATE" then
    {| CURRENT_PRICE := CURRENT_PRICE prev; TARGET_PRICE := TARGET_PRICE prev;
       RISK_FREE_RATE := v; DAYS_TO_EXPIRY := DAYS_TO_EXPIRY prev |}
  else if String.eqb name "DAYS_TO_EXPIRY" then
    {| CURRENT_PRICE := CURRENT_PRICE prev; TARGET_PRICE := TARGET_PRICE prev;
       RISK_FREE_RATE := RISK_FREE_RATE prev; DAYS_TO_EXPIRY := v |}
  else prev.

(** The value stored by [handleOptionChange]: the empty string stays the
    empty string, any other text is parsed. *)
Definition storedValue (value : string) : option R :=
  if String.eqb value EmptyString then None else Some (parseFloat value).

(** [handleOptionChange(id, 'target_iv', value)]. *)
Definition handleTargetIvChange (i : Z) (value : string)
    (prev : list contract) : list contract :=
  map (fun opt =>
         if Z.eqb (id opt) i then setTargetIv (storedValue value) opt else opt)
      prev.

End Handlers.

(** A contract with other display-only fields: identifier and Greeks. *)
Definition withAnnotations (i : Z) (dl gm th : R) (opt : contract) : contract :=
  {| id := i; type := type opt; strike := strike opt; ask := ask opt;
     iv := iv opt; target_iv := target_iv opt;
     delta := dl; gamma := gm; theta := th |}.

(** Decimal digit characters. *)
Definition isDigit (c : ascii) : bool :=
  (Nat.leb 48 (nat_of_ascii c) && Nat.leb (nat_of_ascii c) 57)%bool.

(** Strings of decimal digits. *)
Fixpoint allDigits (s : string) : bool :=
  match s with
  | EmptyString => true
  | String c s' => (isDigit c && allDigits s')%bool
  end.

End App.

(** ** Auxiliary functions for the price as a function of the spot

    These functions are not part of the program.  They name the smooth
    pieces of which [standardNormalCDF] and the price are made, with the
    argument [u] of [erf] as the variable, so that the pieces can be
    differentiated. *)

Module Analysis.

(** The derivative of [horner]. *)
Definition horner' (t : R) : R :=
  BlackScholes.a1 + 2 * BlackScholes.a2 * t + 3 * BlackScholes.a3 * t ^ 2
  + 4 * BlackScholes.a4 * t ^ 3 + 5 * BlackScholes.a5 * t ^ 4.

(** [t^2 * horner'(t)] and its derivative. *)
Definition curve (t : R) : R := t ^ 2 * horner' t.

Definition curve' (t : R) : R :=
  t * (2 * BlackScholes.a1 + 6 * BlackScholes.a2 * t
       + 12 * BlackScholes.a3 * t ^ 2 + 20 * BlackScholes.a4 * t ^ 3
       + 30 * BlackScholes.a5 * t ^ 4).

(** The value [t] of [erf] at a non-negative argument [v], the polynomial
    factor of [y] there, and the derivative of that factor in [v]. *)
Definition tOf (v : R) : R := 1 / (1 + BlackScholes.p * v).
Definition hornerAt (v : R) : R := BlackScholes.horner (tOf v).
Definition hornerAt' (v : R) : R := - BlackScholes.p * curve (tOf v).

(** The exponential factor of [y]. *)
Definition gauss (u : R) : R := exp (- u * u).

(** [standardNormalCDF(x)] as a function of [u = x / sqrt(2)]. *)
Definition cdf (u : R) : R := (1 + BlackScholes.erf u) / 2.

(** [gauss(u) * hornerAt(s * u + k)] and its derivative in [u]. *)
Definition bell (s k u : R) : R := gauss u * hornerAt (s * u + k).
Definition bell' (s k u : R) : R :=
  gauss u * (s * hornerAt' (s * u + k) - 2 * u * hornerAt (s * u + k)).

(** With [w = sigma * sqrt(T) / sqrt(2)] and [u = d2 / sqrt(2)], the spot
    is the discounted strike times [growth w u], and the price is the
    discounted strike times [ratio w u]. *)
Definition growth (w u : R) : R := exp (2 * w * u + w * w).
Definition ratio (w u : R) : R := growth w u * cdf (u + w) - cdf u.

(** [ratio w u] for [0 <= u], for [- w <= u < 0] and for [u < - w], each by
    a formula that is smooth across the ends of its interval, and the
    derivatives of the three in [u]. *)
Definition above (w u : R) : R :=
  growth w u - 1 - (bell 1 w u - bell 1 0 u) / 2.
Definition across (w u : R) : R :=
  growth w u - (bell 1 w u + bell (-1) 0 u) / 2.
Definition below (w u : R) : R :=
  (bell (-1) (- w) u - bell (-1) 0 u) / 2.

Definition above' (w u : R) : R :=
  2 * w * growth w u - (bell' 1 w u - bell' 1 0 u) / 2.
Definition across' (w u : R) : R :=
  2 * w * growth w u - (bell' 1 w u + bell' (-1) 0 u) / 2.
Definition below' (w u : R) : R :=
  (bell' (-1) (- w) u - bell' (-1) 0 u) / 2.

End Analysis.

(** * Properties *)

(** ** Comparisons *)

Lemma Rleb_true x y : Rleb x y = true <-> x <= y.
Proof. unfold Rleb; destruct (Rle_dec x y); split; intros; try easy. Qed.

Lemma Rleb_false x y : Rleb x y = false <-> y < x.
Proof. unfold Rleb; destruct (Rle_dec x y); split; intros; try easy; lra. Qed.

Lemma Rltb_true x y : Rltb x y = true <-> x < y.
Proof. unfold Rltb; destruct (Rlt_dec x y); split; intros; try easy. Qed.

Lemma Rltb_false x y : Rltb x y = false <-> y <= x.
Proof. unfold Rltb; destruct (Rlt_dec x y); split; intros; try easy; lra. Qed.

Lemma Reqb_true x y : Reqb x y = true <-> x = y.
Proof. unfold Reqb; destruct (Req_dec_T x y); split; intros; try easy. Qed.

Lemma Reqb_false x y : Reqb x y = false <-> x <> y.
Proof. unfold Reqb; destruct (Req_dec_T x y); split; intros; try easy. Qed.

(** ** Rounding to the nearest double *)

Lemma Int_part_eq (x : R) (n : Z) :
  IZR n <= x < IZR n + 1 -> Int_part x = n.
Proof.
  intros [H1 H2]. symmetry. apply Int_part_spec. lra.
Qed.

Lemma ln2_pos : 0 < ln 2.
Proof. rewrite <- ln_1. apply ln_increasing; lra. Qed.

Lemma exp_le x y : x <= y -> exp x <= exp y.
Proof.
  intros [H | ->]; [apply Rlt_le, exp_increasing, H | lra].
Qed.

Lemma ln_le x y : 0 < x -> x <= y -> ln x <= ln y.
Proof.
  intros Hx [H | ->]; [apply Rlt_le, ln_increasing; assumption | lra].
Qed.

Lemma powerRZ_2_exp k : powerRZ 2 k = exp (IZR k * ln 2).
Proof. rewrite powerRZ_Rpower by lra. reflexivity. Qed.

Lemma powerRZ_2_le k k' : (k <= k')%Z -> powerRZ 2 k <= powerRZ 2 k'.
Proof.
  intros H. rewrite !powerRZ_2_exp. apply exp_le.
  apply Rmult_le_compat_r; [apply Rlt_le, ln2_pos | now apply IZR_le].
Qed.

Lemma powerRZ_2_pos k : 0 < powerRZ 2 k.
Proof. apply powerRZ_lt. lra. Qed.

Lemma log2_bounds (x : R) (k : Z) :
  powerRZ 2 k <= x < powerRZ 2 (k + 1) ->
  IZR k <= ln x / ln 2 < IZR k + 1.
Proof.
  intros [H1 H2]. pose proof ln2_pos as L.
  pose proof (powerRZ_2_pos k) as Pk.
  assert (A : IZR k * ln 2 <= ln x).
  { rewrite <- (ln_exp (IZR k * ln 2)), <- powerRZ_2_exp. now apply ln_le. }
  assert (B : ln x < (IZR k + 1) * ln 2).
  { rewrite <- plus_IZR, <- (ln_exp (IZR (k + 1) * ln 2)), <- powerRZ_2_exp.
    apply ln_increasing; lra. }
  split.
  - apply (Rmult_le_reg_r (ln 2)); [exact L |].
    unfold Rdiv. rewrite Rmult_assoc, Rinv_l by lra. lra.
  - apply (Rmult_lt_reg_r (ln 2)); [exact L |].
    unfold Rdiv. rewrite Rmult_assoc, Rinv_l by lra. lra.
Qed.

Lemma exponent_eq (x : R) (k : Z) :
  (-1022 <= k)%Z -> powerRZ 2 k <= Rabs x < powerRZ 2 (k + 1) ->
  Double.exponent x = k.
Proof.
  intros Hk H. unfold Double.exponent.
  rewrite (Int_part_eq _ k (log2_bounds _ k H)). lia.
Qed.

Lemma exponent_below (x : R) :
  powerRZ 2 (-1022) <= Rabs x -> powerRZ 2 (Double.exponent x) <= Rabs x.
Proof.
  intros H. pose proof ln2_pos as L.
  pose proof (powerRZ_2_pos (-1022)) as P.
  assert (Hx : 0 < Rabs x) by lra.
  destruct (base_Int_part (ln (Rabs x) / ln 2)) as [B1 B2].
  set (n := Int_part (ln (Rabs x) / ln 2)) in *.
  assert (Hq : IZR (-1022) * ln 2 <= ln (Rabs x)).
  { rewrite <- (ln_exp (IZR (-1022) * ln 2)), <- powerRZ_2_exp.
    now apply ln_le. }
  assert (Hq' : IZR (-1022) <= ln (Rabs x) / ln 2).
  { apply (Rmult_le_reg_r (ln 2)); [exact L |].
    unfold Rdiv. rewrite Rmult_assoc, Rinv_l by lra. lra. }
  assert (Hn : (-1022 <= n)%Z).
  { assert (H' : IZR (-1023) < IZR n).
    { change (IZR (-1023)) with (-1023).
      change (IZR (-1022)) with (-1022) in Hq'. lra. }
    apply lt_IZR in H'. lia. }
  unfold Double.exponent. fold n. rewrite Z.max_r by lia.
  rewrite powerRZ_2_exp, <- (exp_ln (Rabs x) Hx). apply exp_le.
  apply (Rmult_le_compat_r (ln 2)) in B1; [| lra].
  unfold Rdiv in B1. rewrite Rmult_assoc, Rinv_l in B1 by lra. lra.
Qed.

Lemma nearestEven_error r : Rabs (IZR (Double.nearestEven r) - r) <= / 2.
Proof.
  unfold Double.nearestEven. cbv zeta.
  destruct (base_Int_part r) as [B1 B2].
  set (n := Int_part r) in *.
  destruct (Rltb (r - IZR n) (/ 2)) eqn:E1.
  - apply Rltb_true in E1. apply Rabs_le. lra.
  - apply Rltb_false in E1.
    destruct (Rltb (/ 2) (r - IZR n)) eqn:E2.
    + rewrite plus_IZR. apply Rabs_le. lra.
    + apply Rltb_false in E2.
      destruct (Z.even n); [| rewrite plus_IZR]; apply Rabs_le; lra.
Qed.

Lemma round_error x :
  powerRZ 2 (-1022) <= Rabs x ->
  Rabs (Double.round x - x) <= Rabs x * powerRZ 2 (-53).
Proof.
  intros H. pose proof (powerRZ_2_pos (-1022)) as P.
  unfold Double.round.
  assert (Hx : x <> 0) by (intros ->; rewrite Rabs_R0 in H; lra).
  rewrite (proj2 (Reqb_false x 0) Hx).
  pose proof (exponent_below x H) as Hb.
  unfold Double.ulp.
  set (k := Double.exponent x) in *.
  pose proof (powerRZ_2_pos (k - 52)) as Pu.
  set (u := powerRZ 2 (k - 52)) in *.
  assert (Eu : powerRZ 2 k = u * powerRZ 2 52).
  { unfold u. rewrite <- powerRZ_add by lra. f_equal. lia. }
  pose proof (nearestEven_error (x / u)) as Hn.
  set (m := IZR (Double.nearestEven (x / u))) in *.
  assert (E : m * u - x = (m - x / u) * u) by (field; lra).
  rewrite E, Rabs_mult, (Rabs_right u) by lra.
  assert (Hu : u <= Rabs x * powerRZ 2 (-52)).
  { replace u with (powerRZ 2 k * powerRZ 2 (-52)).
    - apply Rmult_le_compat_r; [apply Rlt_le, powerRZ_2_pos | exact Hb].
    - rewrite Eu, Rmult_assoc, <- powerRZ_add by lra. simpl (52 + -52)%Z.
      rewrite powerRZ_O. ring. }
  assert (E53 : powerRZ 2 (-53) = powerRZ 2 (-52) * / 2).
  { replace (-53)%Z with (-52 + -1)%Z by lia. rewrite powerRZ_add by lra.
    f_equal. simpl. field. }
  rewrite E53.
  pose proof (Rabs_pos (m - x / u)) as A0.
  pose proof (powerRZ_2_pos (-52)) as P52.
  assert (A1 : Rabs (m - x / u) * u <= / 2 * u)
    by (apply Rmult_le_compat_r; lra).
  lra.
Qed.

Lemma powerRZ_2_m53 : powerRZ 2 (-53) = / 9007199254740992.
Proof.
  change (powerRZ 2 (-53)) with (/ 2 ^ Pos.to_nat 53). f_equal.
  rewrite pow_IZR. apply f_equal. vm_compute. reflexivity.
Qed.

Lemma Rabs_le_inv a b : Rabs a <= b -> - b <= a <= b.
Proof. unfold Rabs. destruct (Rcase_abs a); lra. Qed.

Lemma tenth_close : Rabs (Double.tenth - 0.1) <= / 100000000000000000.
Proof. unfold Double.tenth. apply Rabs_le. lra. Qed.

Lemma sub_tenth_close a :
  0.2 <= a <= 4 ->
  Rabs (Double.sub a Double.tenth - (a - 0.1)) <= 0.000000000000001.
Proof.
  intros Ha. unfold Double.sub.
  assert (Ht : 0.09 < Double.tenth < 0.11) by (unfold Double.tenth; lra).
  assert (Hx : 0.09 <= a - Double.tenth <= 4) by lra.
  assert (Hn : powerRZ 2 (-1022) <= Rabs (a - Double.tenth)).
  { rewrite Rabs_right by lra.
    apply Rle_trans with (powerRZ 2 (-4)); [apply powerRZ_2_le; lia |].
    simpl. lra. }
  pose proof (round_error _ Hn) as He.
  rewrite powerRZ_2_m53, (Rabs_right (a - Double.tenth)) in He by lra.
  apply Rabs_le_inv in He. pose proof tenth_close as Hc.
  apply Rabs_le_inv in Hc.
  apply Rabs_le. lra.
Qed.

Lemma powerRZ_2_m56 : powerRZ 2 (-56) = / 72057594037927936.
Proof.
  change (powerRZ 2 (-56)) with (/ 2 ^ Pos.to_nat 56). f_equal.
  rewrite pow_IZR. apply f_equal. vm_compute. reflexivity.
Qed.

Lemma round_in_binade (x : R) (k n : Z) (u : R) :
  (-1022 <= k)%Z -> powerRZ 2 k <= Rabs x < powerRZ 2 (k + 1) ->
  powerRZ 2 (k - 52) = u ->
  (IZR n - / 2 < x / u < IZR n + / 2) ->
  Double.round x = IZR n * u.
Proof.
  intros Hk Hb Hu Hn. pose proof (powerRZ_2_pos k) as P.
  unfold Double.round.
  assert (Hx : x <> 0) by (intros ->; rewrite Rabs_R0 in Hb; lra).
  rewrite (proj2 (Reqb_false x 0) Hx).
  unfold Double.ulp. rewrite (exponent_eq x k Hk Hb), Hu.
  f_equal. f_equal.
  unfold Double.nearestEven. cbv zeta.
  destruct (Rle_dec (IZR n) (x / u)) as [H | H].
  - rewrite (Int_part_eq _ n) by lra.
    now rewrite (proj2 (Rltb_true _ _)) by lra.
  - rewrite (Int_part_eq _ (n - 1)) by (rewrite minus_IZR; lra).
    rewrite minus_IZR.
    rewrite (proj2 (Rltb_false _ _)) by lra.
    rewrite (proj2 (Rltb_true _ _)) by lra.
    f_equal. lia.
Qed.

Lemma round_0_1 : Double.round 0.1 = Double.tenth.
Proof.
  rewrite (round_in_binade 0.1 (-4) 7205759403792794 (/ 72057594037927936)).
  - unfold Double.tenth. lra.
  - lia.
  - rewrite Rabs_right by lra. simpl. lra.
  - exact powerRZ_2_m56.
  - lra.
Qed.

Lemma round_0_8 : Double.round 0.8 = 3602879701896397 / 4503599627370496.
Proof.
  rewrite (round_in_binade 0.8 (-1) 7205759403792794 (/ 9007199254740992)).
  - lra.
  - lia.
  - rewrite Rabs_right by lra. simpl. lra.
  - exact powerRZ_2_m53.
  - lra.
Qed.

Lemma round_0_7 : Double.round 0.7 = 3152519739159347 / 4503599627370496.
Proof.
  rewrite (round_in_binade 0.7 (-1) 6305039478318694 (/ 9007199254740992)).
  - lra.
  - lia.
  - rewrite Rabs_right by lra. simpl. lra.
  - exact powerRZ_2_m53.
  - lra.
Qed.

Lemma sub_0_8_tenth :
  Double.sub (Double.round 0.8) Double.tenth
  = 6305039478318695 / 9007199254740992.
Proof.
  rewrite round_0_8. unfold Double.sub, Double.tenth.
  rewrite (round_in_binade _ (-1) 6305039478318695 (/ 9007199254740992)).
  - lra.
  - lia.
  - rewrite Rabs_right by lra. simpl. lra.
  - exact powerRZ_2_m53.
  - lra.
Qed.

(** ** The error function at zero *)

Lemma horner_1 : BlackScholes.horner 1 = 0.999999999.
Proof.
  unfold BlackScholes.horner, BlackScholes.a1, BlackScholes.a2,
    BlackScholes.a3, BlackScholes.a4, BlackScholes.a5.
  lra.
Qed.

Lemma erf_0 : BlackScholes.erf 0 = 0.000000001.
Proof.
  unfold BlackScholes.erf, BlackScholes.sign, BlackScholes.y.
  assert (H : Rleb 0 0 = true) by (apply Rleb_true; lra).
  rewrite H, Rabs_R0.
  replace (1 / (1 + BlackScholes.p * 0)) with 1 by (field; lra).
  replace (- 0 * 0) with 0 by ring.
  rewrite exp_0, horner_1. lra.
Qed.

Lemma sign_pos x : 0 < x -> BlackScholes.sign x = 1.
Proof.
  intros H. unfold BlackScholes.sign.
  assert (E : Rleb 0 x = true) by (apply Rleb_true; lra).
  now rewrite E.
Qed.

Lemma sign_neg x : x < 0 -> BlackScholes.sign x = -1.
Proof.
  intros H. unfold BlackScholes.sign.
  assert (E : Rleb 0 x = false) by (apply Rleb_false; lra).
  now rewrite E.
Qed.

Lemma sign_opp x : x <> 0 -> BlackScholes.sign (- x) = - BlackScholes.sign x.
Proof.
  intros H. destruct (Rlt_le_dec 0 x) as [Hp | Hn].
  - rewrite (sign_pos x Hp), (sign_neg (- x)); lra.
  - rewrite (sign_neg x), (sign_pos (- x)); lra.
Qed.

Lemma standardNormalCDF_0 : BlackScholes.standardNormalCDF 0 = 0.5000000005.
Proof.
  unfold BlackScholes.standardNormalCDF.
  replace (0 / sqrt 2) with 0 by (unfold Rdiv; ring).
  rewrite erf_0. lra.
Qed.

(** ** Claims on the pricing primitive *)

(** C5: for positive spot and strike and any rate and volatility, a call
    with [yearsToExpiry <= 0] is priced at its intrinsic value
    [max(0, spot - strike)], and so it is at [yearsToExpiry = 0]. *)
Theorem blackScholesCall_intrinsic (S K T r sigma : R) :
  0 < S -> 0 < K -> T <= 0 ->
  BlackScholes.blackScholesCall S K T r sigma = Rmax 0 (S - K)
  /\ BlackScholes.blackScholesCall S K 0 r sigma = Rmax 0 (S - K).
Proof.
  intros _ _ HT. unfold BlackScholes.blackScholesCall.
  assert (E : Rleb T 0 = true) by (apply Rleb_true; exact HT).
  assert (E0 : Rleb 0 0 = true) by (apply Rleb_true; lra).
  rewrite E, E0. split; reflexivity.
Qed.

Lemma blackScholesCall_intrinsic_witness :
  0 < 360 /\ 0 < 340 /\ 0 <= 0
  /\ BlackScholes.blackScholesCall 360 340 0 0.045 0.6737 = Rmax 0 (360 - 340).
Proof.
  repeat split; try lra.
  apply (blackScholesCall_intrinsic 360 340 0 0.045 0.6737); lra.
Defined.

(** C7, as stated, fails at zero: the approximation gives [erf(0) = 1e-9],
    so that [erf(-0)] differs from [-erf(0)], [erf(0)] from [0] and the
    normal distribution function at [0] from [0.5]. *)
Lemma erf_not_odd_at_0 :
  BlackScholes.erf (- 0) <> - BlackScholes.erf 0
  /\ BlackScholes.erf 0 <> 0
  /\ BlackScholes.standardNormalCDF 0 <> 0.5.
Proof.
  replace (- 0) with 0 by ring.
  rewrite standardNormalCDF_0, erf_0. repeat split; lra.
Qed.

(** C7, amended: [erf(-x) = -erf(x)] for every [x] other than zero,
    [erf(0) = 1e-9], and the normal distribution function built on it is
    [0.5000000005] at [0]. *)
Theorem erf_odd_away_from_0 :
  (forall x : R, x <> 0 -> BlackScholes.erf (- x) = - BlackScholes.erf x)
  /\ BlackScholes.erf 0 = 0.000000001
  /\ BlackScholes.standardNormalCDF 0 = 0.5000000005.
Proof.
  split; [| split; [exact erf_0 | exact standardNormalCDF_0]].
  intros x Hx. unfold BlackScholes.erf.
  rewrite (sign_opp x Hx), Rabs_Ropp. ring.
Qed.

Lemma erf_odd_away_from_0_witness :
  1 <> 0 /\ BlackScholes.erf (- 1) = - BlackScholes.erf 1.
Proof.
  split; [lra | apply (proj1 erf_odd_away_from_0 1); lra].
Defined.

(** ** Structure of the projection *)

Section Projection.

Variable numberToString : R -> string.

Local Abbreviation optionStep := (App.optionStep numberToString).
Local Abbreviation scenarioStep := (App.scenarioStep numberToString).
Local Abbreviation detailOf := (App.detailOf numberToString).
Local Abbreviation chartKey := (App.chartKey numberToString).
Local Abbreviation toFixed2 := (App.toFixed2 numberToString).
Local Abbreviation simulate := (App.simulate numberToString).

Local Abbreviation chartFields := (App.chartFields numberToString).

Lemma fold_optionStep cfg d sorted : forall cp dets,
  fold_left (optionStep cfg d) sorted (cp, dets)
  = (chartFields cfg d sorted cp, (dets ++ map (detailOf cfg d) sorted)%list).
Proof.
  induction sorted as [| opt sorted IH]; intros cp dets; simpl.
  - now rewrite app_nil_r.
  - rewrite IH, <- app_assoc. reflexivity.
Qed.

Lemma scenarioStep_eq cfg sorted d :
  scenarioStep cfg sorted d
  = (chartFields cfg d sorted
       [ ("name", App.VStr (App.dayLabel d));
         ("price", App.VNum (App.simulatedPrice cfg)) ],
     {| App.day := App.dayLabel d;
        App.details := map (detailOf cfg d) sorted |}).
Proof.
  unfold App.scenarioStep. rewrite fold_optionStep. reflexivity.
Qed.

Lemma chartData_eq cfg options :
  App.chartData (simulate cfg options)
  = map (fun d =>
           chartFields cfg d (App.sortedOptions options)
             [ ("name", App.VStr (App.dayLabel d));
               ("price", App.VNum (App.simulatedPrice cfg)) ])
        (App.scenarios cfg).
Proof.
  unfold App.simulate, App.calculateProjections; simpl.
  rewrite map_map. apply map_ext. intros d. now rewrite scenarioStep_eq.
Qed.

Lemma groupedResults_eq cfg options :
  App.groupedResults (simulate cfg options)
  = map (fun d =>
           {| App.day := App.dayLabel d;
              App.details := map (detailOf cfg d) (App.sortedOptions options) |})
        (App.scenarios cfg).
Proof.
  unfold App.simulate, App.calculateProjections; simpl.
  rewrite map_map. apply map_ext. intros d. now rewrite scenarioStep_eq.
Qed.

End Projection.

(** ** The sort *)

Lemma insert_perm a l : Permutation (a :: l) (App.insert a l).
Proof.
  induction l as [| b l IH]; simpl.
  - apply Permutation_refl.
  - destruct (Rltb 0 (App.strike a - App.strike b)).
    + apply perm_trans with (b :: a :: l); [apply perm_swap |].
      now apply perm_skip.
    + apply Permutation_refl.
Qed.

Lemma sortedOptions_perm l : Permutation l (App.sortedOptions l).
Proof.
  induction l as [| a l IH]; simpl.
  - apply perm_nil.
  - apply perm_trans with (a :: App.sortedOptions l).
    + now apply perm_skip.
    + apply insert_perm.
Qed.

Lemma sortedOptions_In l x : In x (App.sortedOptions l) <-> In x l.
Proof.
  split; apply Permutation_in;
    [apply Permutation_sym |]; apply sortedOptions_perm.
Qed.

(** Decides the comparisons of a goal between numerals. *)
Ltac rbool :=
  repeat match goal with
  | |- context [Rleb ?a ?b] =>
      first [ rewrite (proj2 (Rleb_true a b)) by lra
            | rewrite (proj2 (Rleb_false a b)) by lra ]
  | |- context [Rltb ?a ?b] =>
      first [ rewrite (proj2 (Rltb_true a b)) by lra
            | rewrite (proj2 (Rltb_false a b)) by lra ]
  | |- context [Reqb ?a ?b] =>
      first [ rewrite (proj2 (Reqb_true a b)) by lra
            | rewrite (proj2 (Reqb_false a b)) by lra ]
  end.

(** ** Claims on the volatility *)

Lemma truthy_Some x : App.truthy (Some x) = true <-> x <> 0.
Proof.
  unfold App.truthy. rewrite negb_true_iff. apply Reqb_false.
Qed.

Lemma truthy_Some_0 : App.truthy (Some 0) = false.
Proof. unfold App.truthy. now rbool. Qed.

Lemma targetIv_zero opt :
  App.target_iv opt = Some 0 -> App.targetIv opt = App.iv opt.
Proof. unfold App.targetIv. intros ->. now rewrite truthy_Some_0. Qed.

Lemma crushCondition_zero opt :
  App.target_iv opt = Some 0 -> App.crushCondition opt = false.
Proof. unfold App.crushCondition. intros ->. now rewrite truthy_Some_0. Qed.

(** C1, as stated, fails for a target volatility of exactly zero: the
    contract is priced with its current volatility instead. *)
Lemma targetIv_zero_is_not_used :
  App.target_iv (App.setTargetIv (Some 0) App.atmCall) = Some 0
  /\ App.targetIv (App.setTargetIv (Some 0) App.atmCall) <> 0
  /\ App.estPrice App.DEFAULT_CONFIG 30 (App.setTargetIv (Some 0) App.atmCall)
     = BlackScholes.blackScholesCall 360 340
         (App.yearsRemaining App.DEFAULT_CONFIG 30) 0.045 0.6737.
Proof.
  assert (E : App.targetIv (App.setTargetIv (Some 0) App.atmCall) = 0.6737).
  { now rewrite targetIv_zero. }
  unfold App.estPrice. rewrite E.
  split; [reflexivity | split; [lra | reflexivity]].
Qed.

(** C1, amended: the volatility passed to the pricing primitive for a
    contract is its target volatility when that field is set to a number
    other than zero, and its current volatility when the field is unset or
    set to exactly zero. *)
Theorem targetIv_fallback (cfg : App.config) (d : Z) (opt : App.contract) :
  App.estPrice cfg d opt
  = BlackScholes.blackScholesCall (App.TARGET_PRICE cfg) (App.strike opt)
      (App.yearsRemaining cfg d) (App.RISK_FREE_RATE cfg) (App.targetIv opt)
  /\ (forall x, App.target_iv opt = Some x -> x <> 0 -> App.targetIv opt = x)
  /\ (App.target_iv opt = Some 0 -> App.targetIv opt = App.iv opt)
  /\ (App.target_iv opt = None -> App.targetIv opt = App.iv opt).
Proof.
  split; [reflexivity |]. unfold App.targetIv.
  repeat split.
  - intros x -> Hx. apply truthy_Some in Hx. now rewrite Hx.
  - apply targetIv_zero.
  - now intros ->.
Qed.

Lemma targetIv_fallback_witness :
  App.target_iv (App.setTargetIv (Some 0.45) App.atmCall) = Some 0.45
  /\ 0.45 <> 0
  /\ App.targetIv (App.setTargetIv (Some 0.45) App.atmCall) = 0.45.
Proof.
  split; [reflexivity | split; [lra |]].
  apply (proj1 (proj2 (targetIv_fallback App.DEFAULT_CONFIG 30
                         (App.setTargetIv (Some 0.45) App.atmCall))));
    [reflexivity | lra].
Defined.

Lemma crushCondition_true opt :
  App.crushCondition opt = true
  <-> exists x,
        App.target_iv opt = Some x /\ x <> 0 /\ x < App.crushThreshold opt.
Proof.
  unfold App.crushCondition. destruct (App.target_iv opt) as [x |].
  - rewrite andb_true_iff, truthy_Some, Rltb_true. split.
    + intros [H1 H2]. now exists x.
    + intros (y & E & H1 & H2). injection E as <-. now split.
  - split; [discriminate | intros (y & E & _); discriminate].
Qed.

Lemma crushThreshold_close opt :
  0.2 <= App.iv opt <= 4 ->
  Rabs (App.crushThreshold opt - (App.iv opt - 0.1)) <= 0.000000000000001.
Proof. apply sub_tenth_close. Qed.

(** C2, as stated, fails for a target volatility of exactly zero: the field
    is set and lies more than 0.10 below the current volatility, and the
    flag is false. *)
Lemma crush_flag_ignores_zero_target :
  (exists opt x,
      In opt [App.setTargetIv (Some 0) App.atmCall]
      /\ App.target_iv opt = Some x /\ x < App.iv opt - 0.1)
  /\ App.isIvCrush
       (App.simulate App.integerToString App.DEFAULT_CONFIG
          [App.setTargetIv (Some 0) App.atmCall]) = false.
Proof.
  split.
  - exists (App.setTargetIv (Some 0) App.atmCall), 0.
    repeat split; [now left | simpl; lra].
  - unfold App.simulate, App.calculateProjections, App.crushDetected; simpl.
    now rewrite crushCondition_zero.
Qed.

(** C2, amended: the flag is true if and only if some contract of the input
    has its target volatility set to a number other than zero that is less
    than the threshold [iv - 0.1] as the source computes it, the difference
    of two doubles rounded to the nearest double.  For a volatility between
    0.2 and 4 that threshold lies within [1e-15] of the volatility minus
    0.10.  A contract with volatility 0.60 and target 0.45 (each up to
    [1e-9], which covers the doubles of those literals) yields true, and
    with target 0.55 yields false.  Where the drop is 0.10 in decimal
    notation the rounding decides: with the doubles written [0.8] and [0.7]
    the threshold is the double above [0.7] and the flag is true. *)
Theorem crush_flag_iff (numberToString : R -> string)
    (cfg : App.config) (options : list App.contract) :
  (App.isIvCrush (App.simulate numberToString cfg options) = true
   <-> exists opt x,
         In opt options /\ App.target_iv opt = Some x
         /\ x <> 0 /\ x < App.crushThreshold opt)
  /\ (forall opt,
        0.2 <= App.iv opt <= 4 ->
        Rabs (App.crushThreshold opt - (App.iv opt - 0.1))
        <= 0.000000000000001)
  /\ (forall opt x,
        Rabs (App.iv opt - 0.60) <= 0.000000001 ->
        App.target_iv opt = Some x -> Rabs (x - 0.45) <= 0.000000001 ->
        App.isIvCrush (App.simulate numberToString cfg [opt]) = true)
  /\ (forall opt x,
        Rabs (App.iv opt - 0.60) <= 0.000000001 ->
        App.target_iv opt = Some x -> Rabs (x - 0.55) <= 0.000000001 ->
        App.isIvCrush (App.simulate numberToString cfg [opt]) = false)
  /\ (forall opt,
        App.iv opt = Double.round 0.8 ->
        App.target_iv opt = Some (Double.round 0.7) ->
        App.crushThreshold opt = Double.round 0.7 + Double.ulp 0.7
        /\ App.isIvCrush (App.simulate numberToString cfg [opt]) = true).
Proof.
  unfold App.simulate, App.calculateProjections, App.crushDetected; simpl.
  split; [| split; [| split; [| split]]].
  - rewrite existsb_exists. split.
    + intros (opt & Hin & Hc).
      apply (proj1 (sortedOptions_In _ _)) in Hin.
      apply (proj1 (crushCondition_true _)) in Hc.
      destruct Hc as (x & Hx). exists opt, x. now split.
    + intros (opt & x & Hin & Hx). exists opt. split.
      * now apply sortedOptions_In.
      * apply crushCondition_true. now exists x.
  - exact crushThreshold_close.
  - intros opt x Hiv Ht Hx. rewrite orb_false_r.
    apply Rabs_le_inv in Hiv. apply Rabs_le_inv in Hx.
    assert (Hc : 0.2 <= App.iv opt <= 4) by lra.
    apply crushThreshold_close, Rabs_le_inv in Hc.
    apply crushCondition_true. exists x.
    repeat split; [exact Ht | lra | lra].
  - intros opt x Hiv Ht Hx. rewrite orb_false_r.
    apply Rabs_le_inv in Hiv. apply Rabs_le_inv in Hx.
    assert (Hc : 0.2 <= App.iv opt <= 4) by lra.
    apply crushThreshold_close, Rabs_le_inv in Hc.
    apply not_true_is_false. intros H.
    apply (proj1 (crushCondition_true _)) in H.
    destruct H as (y & E & _ & Hlt).
    rewrite Ht in E. injection E as <-. lra.
  - intros opt Hiv Ht.
    assert (E : App.crushThreshold opt
                = Double.round 0.7 + Double.ulp 0.7).
    { unfold App.crushThreshold. rewrite Hiv, sub_0_8_tenth, round_0_7.
      unfold Double.ulp.
      rewrite (exponent_eq 0.7 (-1))
        by (try lia; rewrite Rabs_right by lra; simpl; lra).
      simpl (-1 - 52)%Z. rewrite powerRZ_2_m53. lra. }
    split; [exact E |]. rewrite orb_false_r.
    apply crushCondition_true. exists (Double.round 0.7).
    rewrite E. pose proof (powerRZ_2_pos (Double.exponent 0.7 - 52)) as P.
    fold (Double.ulp 0.7) in P.
    repeat split; [exact Ht | rewrite round_0_7; lra | lra].
Qed.

Lemma crush_flag_iff_witness :
  Rabs (App.iv App.crushedCall - 0.60) <= 0.000000001
  /\ App.target_iv App.crushedCall = Some 0.45
  /\ Rabs (0.45 - 0.45) <= 0.000000001
  /\ App.isIvCrush
       (App.simulate App.integerToString App.DEFAULT_CONFIG [App.crushedCall])
     = true.
Proof.
  assert (H1 : Rabs (App.iv App.crushedCall - 0.60) <= 0.000000001)
    by (apply Rabs_le; simpl; lra).
  assert (H2 : Rabs (0.45 - 0.45) <= 0.000000001) by (apply Rabs_le; lra).
  split; [exact H1 | split; [reflexivity | split; [exact H2 |]]].
  apply (proj1 (proj2 (proj2 (crush_flag_iff App.integerToString
                                App.DEFAULT_CONFIG [])))
           App.crushedCall 0.45 H1 eq_refl H2).
Defined.

(** ** Claims on the scenario days *)

Lemma scenarioDays_multiples d :
  In d App.scenarioDays <-> exists k, (1 <= k <= 12)%Z /\ d = (30 * k)%Z.
Proof.
  unfold App.scenarioDays. split.
  - simpl. intros H.
    exists (d / 30)%Z.
    repeat (destruct H as [<- | H]; [split; [split |]; reflexivity || discriminate |]).
    contradiction.
  - intros (k & Hk & ->).
    assert (C : (k = 1 \/ k = 2 \/ k = 3 \/ k = 4 \/ k = 5 \/ k = 6 \/ k = 7
                 \/ k = 8 \/ k = 9 \/ k = 10 \/ k = 11 \/ k = 12)%Z) by lia.
    simpl. repeat (destruct C as [-> | C]; [tauto |]). subst k. tauto.
Qed.

Lemma filter_StronglySorted {A} (lt : A -> A -> Prop) (f : A -> bool) l :
  StronglySorted lt l -> StronglySorted lt (filter f l).
Proof.
  induction 1 as [| a l Hs IH Ha]; simpl.
  - constructor.
  - destruct (f a); [| exact IH].
    constructor; [exact IH |].
    rewrite Forall_forall in *. intros x Hx.
    apply filter_In in Hx. now apply Ha.
Qed.

Lemma scenarioDays_sorted : StronglySorted Z.lt App.scenarioDays.
Proof.
  unfold App.scenarioDays.
  repeat (constructor; [| repeat (constructor; [reflexivity |]); constructor]).
  constructor.
Qed.

(** C3: the retained offsets are exactly the multiples of 30 from 30 to 360
    that are at most [daysToExpiry], in ascending order; they are 30, 60, 90
    for 100 days; below 30 days there is none, and the chart series and the
    grouped table are both empty. *)
Theorem scenarios_retained (numberToString : R -> string)
    (cfg : App.config) (options : list App.contract) :
  (forall d,
      In d (App.scenarios cfg)
      <-> (exists k, (1 <= k <= 12)%Z /\ d = (30 * k)%Z)
          /\ IZR d <= App.DAYS_TO_EXPIRY cfg)
  /\ StronglySorted Z.lt (App.scenarios cfg)
  /\ (App.DAYS_TO_EXPIRY cfg = 100 -> App.scenarios cfg = [30; 60; 90]%Z)
  /\ (App.DAYS_TO_EXPIRY cfg < 30 ->
      App.scenarios cfg = []
      /\ App.chartData (App.simulate numberToString cfg options) = []
      /\ App.groupedResults (App.simulate numberToString cfg options) = []).
Proof.
  split; [| split; [| split]].
  - intros d. unfold App.scenarios.
    rewrite filter_In, scenarioDays_multiples, Rleb_true. reflexivity.
  - apply filter_StronglySorted, scenarioDays_sorted.
  - intros H. unfold App.scenarios, App.scenarioDays. simpl.
    rewrite H. rbool. reflexivity.
  - intros H.
    assert (E : App.scenarios cfg = []).
    { unfold App.scenarios, App.scenarioDays. simpl.
      repeat match goal with
      | |- context [Rleb ?a ?b] =>
          rewrite (proj2 (Rleb_false a b)) by lra
      end.
      reflexivity. }
    unfold App.simulate, App.calculateProjections. simpl.
    rewrite E. repeat split.
Qed.

Lemma scenarios_retained_witness :
  App.DAYS_TO_EXPIRY App.shortConfig < 30
  /\ App.scenarios App.shortConfig = []
  /\ App.chartData
       (App.simulate App.integerToString App.shortConfig App.DEFAULT_OPTIONS)
     = []
  /\ App.groupedResults
       (App.simulate App.integerToString App.shortConfig App.DEFAULT_OPTIONS)
     = [].
Proof.
  split; [simpl; lra |].
  apply (proj2 (proj2 (proj2 (scenarios_retained App.integerToString
                                App.shortConfig App.DEFAULT_OPTIONS)))).
  simpl; lra.
Defined.

(** ** Rendering with two fraction digits *)

(** The rendering of a non-negative number below [10^21] whose nearest
    multiple of 1/100 is [n / 100]. *)
Lemma toFixed2_nonneg (numberToString : R -> string) (x : R) (n : Z) :
  0 <= x < 10 ^ 21 ->
  IZR n <= x * 100 + / 2 < IZR n + 1 ->
  App.toFixed2 numberToString x = App.fixed2 false n.
Proof.
  intros [H0 H1] Hn. unfold App.toFixed2.
  rewrite (proj2 (Rltb_false x 0)) by lra.
  rewrite (proj2 (Rleb_false (10 ^ 21) x)) by lra.
  rewrite (Int_part_eq _ n Hn). reflexivity.
Qed.

(** Below [10^21] in absolute value, the rendering is that of an integer
    number of hundredths at distance at most 1/200 from the absolute value. *)
Lemma toFixed2_rounds (numberToString : R -> string) (x : R) :
  Rabs x < 10 ^ 21 ->
  exists n : Z,
    (0 <= n)%Z /\ Rabs (IZR n / 100 - Rabs x) <= / 200
    /\ App.toFixed2 numberToString x = App.fixed2 (Rltb x 0) n.
Proof.
  intros Hx. unfold App.toFixed2.
  set (y := if Rltb x 0 then - x else x).
  assert (Hy : y = Rabs x).
  { unfold y. destruct (Rltb x 0) eqn:E.
    - apply Rltb_true in E. rewrite Rabs_left; lra.
    - apply Rltb_false in E. rewrite Rabs_right; lra. }
  clearbody y.
  rewrite (proj2 (Rleb_false (10 ^ 21) y)) by (rewrite Hy; exact Hx).
  exists (Int_part (y * 100 + / 2)).
  destruct (base_Int_part (y * 100 + / 2)) as [B1 B2].
  assert (Hy0 : 0 <= y) by (rewrite Hy; apply Rabs_pos).
  repeat split.
  - assert (H : -1 < IZR (Int_part (y * 100 + / 2))) by lra.
    apply (lt_IZR (-1)) in H. lia.
  - rewrite <- Hy. apply Rabs_le. lra.
Qed.


Lemma toFixed2_neg (numberToString : R -> string) (x : R) (n : Z) :
  - 10 ^ 21 < x < 0 ->
  IZR n <= - x * 100 + / 2 < IZR n + 1 ->
  App.toFixed2 numberToString x = App.fixed2 true n.
Proof.
  intros [H0 H1] Hn. unfold App.toFixed2.
  rewrite (proj2 (Rltb_true x 0)) by lra.
  rewrite (proj2 (Rleb_false (10 ^ 21) (- x))) by lra.
  rewrite (Int_part_eq _ n Hn). reflexivity.
Qed.

Example toFixed2_tie (numberToString : R -> string) :
  App.toFixed2 numberToString 12.345 = "12.35".
Proof.
  rewrite (toFixed2_nonneg numberToString 12.345 1235); [reflexivity | |];
    simpl; lra.
Qed.

Example toFixed2_loss (numberToString : R -> string) :
  App.toFixed2 numberToString (-79.144) = "-79.14".
Proof.
  rewrite (toFixed2_neg numberToString (-79.144) 7914); [reflexivity | |];
    simpl; lra.
Qed.

Example toFixed2_small_loss (numberToString : R -> string) :
  App.toFixed2 numberToString (-0.001) = "-0.00".
Proof.
  rewrite (toFixed2_neg numberToString (-0.001) 0); [reflexivity | |];
    simpl; lra.
Qed.

(** ** Claims on the return on investment *)

Lemma groupedResults_In numberToString cfg options r :
  In r (App.groupedResults (App.simulate numberToString cfg options))
  <-> exists d,
        In d (App.scenarios cfg)
        /\ r = {| App.day := App.dayLabel d;
                  App.details := map (App.detailOf numberToString cfg d)
                                   (App.sortedOptions options) |}.
Proof.
  rewrite groupedResults_eq, in_map_iff. split.
  - intros (d & E & Hd). now exists d.
  - intros (d & Hd & E). now exists d.
Qed.



(** ** Objects and chart keys *)

Lemma obj_get_set_same k v o : App.obj_get k (App.obj_set k v o) = Some v.
Proof.
  induction o as [| [k' v'] o IH]; simpl.
  - now rewrite String.eqb_refl.
  - destruct (String.eqb k' k) eqn:E; simpl; rewrite E; [reflexivity | exact IH].
Qed.

Lemma obj_get_set_other k k' v o :
  k <> k' -> App.obj_get k (App.obj_set k' v o) = App.obj_get k o.
Proof.
  intros Hk. induction o as [| [k0 v0] o IH]; simpl.
  - apply String.eqb_neq in Hk. rewrite String.eqb_sym in Hk. now rewrite Hk.
  - destruct (String.eqb k0 k') eqn:E; simpl.
    + apply String.eqb_eq in E. subst k0.
      assert (E' : String.eqb k' k = false)
        by (apply String.eqb_neq; congruence).
      now rewrite E'.
    + now rewrite IH.
Qed.

Lemma last_char_app a b : b <> EmptyString -> App.last_char (a ++ b) = App.last_char b.
Proof.
  intros Hb. induction a as [| c a IH]; simpl; [reflexivity |].
  rewrite IH. destruct (a ++ b) eqn:E; [| reflexivity].
  destruct a; simpl in E; [contradiction | discriminate].
Qed.

Lemma chartKey_last numberToString opt :
  App.last_char (App.chartKey numberToString opt) = Some ")"%char.
Proof.
  unfold App.chartKey.
  rewrite last_char_app.
  - rewrite (last_char_app " ($").
    + now rewrite last_char_app.
    + destruct (numberToString (App.strike opt)); discriminate.
  - discriminate.
Qed.

Lemma chartKey_not_price numberToString opt :
  "price" <> App.chartKey numberToString opt.
Proof.
  intros E. pose proof (chartKey_last numberToString opt) as H.
  rewrite <- E in H. discriminate.
Qed.

Lemma chartKey_not_name numberToString opt :
  "name" <> App.chartKey numberToString opt.
Proof.
  intros E. pose proof (chartKey_last numberToString opt) as H.
  rewrite <- E in H. discriminate.
Qed.

Lemma chartFields_get_other numberToString cfg d k sorted : forall cp,
  (forall opt, In opt sorted -> k <> App.chartKey numberToString opt) ->
  App.obj_get k (App.chartFields numberToString cfg d sorted cp)
  = App.obj_get k cp.
Proof.
  induction sorted as [| o l IH]; intros cp H; simpl; [reflexivity |].
  rewrite IH by (intros; apply H; now right).
  apply obj_get_set_other, H. now left.
Qed.

Lemma chartData_In numberToString cfg options pt :
  In pt (App.chartData (App.simulate numberToString cfg options))
  <-> exists d,
        In d (App.scenarios cfg)
        /\ pt = App.chartFields numberToString cfg d (App.sortedOptions options)
                  [ ("name", App.VStr (App.dayLabel d));
                    ("price", App.VNum (App.simulatedPrice cfg)) ].
Proof.
  rewrite chartData_eq, in_map_iff. split.
  - intros (d & E & Hd). now exists d.
  - intros (d & Hd & E). now exists d.
Qed.

(** ** Claims on the chart series *)

(** C10: every chart point has a field [price] holding the target price of
    the configuration, at every retained offset, also when there is no
    contract: the chart series then is the list of the points with the
    fields [name] and [price] only. *)
Theorem chart_point_price (numberToString : R -> string)
    (cfg : App.config) (options : list App.contract) :
  (forall pt,
      In pt (App.chartData (App.simulate numberToString cfg options)) ->
      App.obj_get "price" pt = Some (App.VNum (App.TARGET_PRICE cfg)))
  /\ List.length (App.chartData (App.simulate numberToString cfg options))
     = List.length (App.scenarios cfg)
  /\ App.chartData (App.simulate numberToString cfg [])
     = map (fun d => [ ("name", App.VStr (App.dayLabel d));
                       ("price", App.VNum (App.TARGET_PRICE cfg)) ])
         (App.scenarios cfg).
Proof.
  split; [| split].
  - intros pt Hpt. apply chartData_In in Hpt. destruct Hpt as (d & _ & ->).
    rewrite chartFields_get_other; [reflexivity |].
    intros opt _. apply chartKey_not_price.
  - rewrite chartData_eq. apply List.length_map.
  - rewrite chartData_eq. reflexivity.
Qed.

Lemma chart_point_price_witness :
  In [ ("name", App.VStr "Day 30"); ("price", App.VNum 100) ]
     (App.chartData
        (App.simulate App.integerToString
           {| App.CURRENT_PRICE := 90; App.TARGET_PRICE := 100;
              App.RISK_FREE_RATE := 0.045; App.DAYS_TO_EXPIRY := 45 |} []))
  /\ App.obj_get "price" [ ("name", App.VStr "Day 30"); ("price", App.VNum 100) ]
     = Some (App.VNum 100).
Proof.
  assert (H : In [ ("name", App.VStr "Day 30"); ("price", App.VNum 100) ]
     (App.chartData
        (App.simulate App.integerToString
           {| App.CURRENT_PRICE := 90; App.TARGET_PRICE := 100;
              App.RISK_FREE_RATE := 0.045; App.DAYS_TO_EXPIRY := 45 |} []))).
  { unfold App.simulate, App.calculateProjections, App.scenarios,
      App.scenarioDays; simpl.
    rbool. simpl. now left. }
  split; [exact H |].
  exact (proj1 (chart_point_price App.integerToString _ []) _ H).
Defined.

Lemma chartFields_get numberToString cfg d k sorted : forall cp,
  App.obj_get k (App.chartFields numberToString cfg d sorted cp)
  = match App.lastWithKey numberToString k sorted with
    | Some o =>
        Some (App.VStr (App.toFixed2 numberToString (App.roi cfg d o)))
    | None => App.obj_get k cp
    end.
Proof.
  induction sorted as [| o l IH]; intros cp; simpl; [reflexivity |].
  rewrite IH. destruct (App.lastWithKey numberToString k l); [reflexivity |].
  destruct (String.eqb (App.chartKey numberToString o) k) eqn:E.
  - apply String.eqb_eq in E. subst k. apply obj_get_set_same.
  - apply String.eqb_neq in E. apply obj_get_set_other. congruence.
Qed.

Lemma lastWithKey_Some numberToString k l o :
  App.lastWithKey numberToString k l = Some o ->
  In o l /\ App.chartKey numberToString o = k.
Proof.
  induction l as [| a l IH]; simpl; [discriminate |].
  destruct (App.lastWithKey numberToString k l) as [o' |].
  - intros E. injection E as ->. destruct (IH eq_refl). split; [now right | easy].
  - destruct (String.eqb (App.chartKey numberToString a) k) eqn:E;
      [| discriminate].
    intros E'. injection E' as ->. split; [now left | now apply String.eqb_eq].
Qed.



Lemma lastWithKey_NoDup numberToString opt l :
  NoDup (map (App.chartKey numberToString) l) -> In opt l ->
  App.lastWithKey numberToString (App.chartKey numberToString opt) l = Some opt.
Proof.
  induction l as [| a l IH]; simpl; [contradiction |].
  intros Hnd H. inversion Hnd as [| k ks Hk Hnd' Ek]; subst.
  destruct H as [-> | H].
  - destruct (App.lastWithKey numberToString
                (App.chartKey numberToString opt) l) as [o |] eqn:E.
    + exfalso. apply Hk. apply lastWithKey_Some in E. destruct E as [Ho <-].
      now apply in_map.
    + now rewrite String.eqb_refl.
  - now rewrite (IH Hnd' H).
Qed.








(** ** The sort is ascending, stable and canonical *)

Lemma insert_In a x l : In x (App.insert a l) <-> x = a \/ In x l.
Proof.
  split.
  - intros H. apply (Permutation_in x (Permutation_sym (insert_perm a l))) in H.
    destruct H as [<- | H]; [now left | now right].
  - intros H. apply (Permutation_in x (insert_perm a l)).
    destruct H as [-> | H]; [now left | now right].
Qed.

Lemma insert_sorted a l :
  StronglySorted App.strikeLe l -> StronglySorted App.strikeLe (App.insert a l).
Proof.
  induction 1 as [| b l Hs IH Hb]; simpl.
  - repeat constructor.
  - destruct (Rltb 0 (App.strike a - App.strike b)) eqn:E.
    + apply Rltb_true in E. constructor; [exact IH |].
      rewrite Forall_forall in *. intros x Hx.
      apply insert_In in Hx. destruct Hx as [-> | Hx].
      * unfold App.strikeLe. lra.
      * now apply Hb.
    + apply Rltb_false in E. constructor.
      * now constructor.
      * constructor; [unfold App.strikeLe; lra |].
        rewrite Forall_forall in *. intros x Hx.
        specialize (Hb x Hx). unfold App.strikeLe in *. lra.
Qed.

Lemma sortedOptions_sorted l : StronglySorted App.strikeLe (App.sortedOptions l).
Proof.
  induction l as [| a l IH]; simpl; [constructor | now apply insert_sorted].
Qed.

Lemma insert_stable s a l :
  filter (App.hasStrike s) (App.insert a l)
  = filter (App.hasStrike s) (a :: l).
Proof.
  induction l as [| b l IH]; [reflexivity |].
  simpl App.insert.
  destruct (Rltb 0 (App.strike a - App.strike b)) eqn:E; [| reflexivity].
  apply Rltb_true in E.
  change (filter (App.hasStrike s) (b :: App.insert a l))
    with (if App.hasStrike s b
          then b :: filter (App.hasStrike s) (App.insert a l)
          else filter (App.hasStrike s) (App.insert a l)).
  rewrite IH. simpl. unfold App.hasStrike.
  destruct (Reqb (App.strike a) s) eqn:Ea, (Reqb (App.strike b) s) eqn:Eb;
    try reflexivity.
  apply Reqb_true in Ea, Eb. lra.
Qed.

Lemma sortedOptions_stable s l :
  filter (App.hasStrike s) (App.sortedOptions l) = filter (App.hasStrike s) l.
Proof.
  induction l as [| a l IH]; [reflexivity |].
  simpl App.sortedOptions. rewrite insert_stable. simpl. now rewrite IH.
Qed.

Lemma hasStrike_self a : App.hasStrike (App.strike a) a = true.
Proof. unfold App.hasStrike. now apply Reqb_true. Qed.

(** Two ascending lists with the same contracts at every strike, in the same
    order, are equal. *)
Lemma sorted_unique l1 : forall l2,
  StronglySorted App.strikeLe l1 -> StronglySorted App.strikeLe l2 ->
  (forall s, filter (App.hasStrike s) l1 = filter (App.hasStrike s) l2) ->
  l1 = l2.
Proof.
  induction l1 as [| a t1 IH]; intros l2 S1 S2 H.
  - destruct l2 as [| b t2]; [reflexivity |].
    specialize (H (App.strike b)). simpl in H.
    rewrite hasStrike_self in H. discriminate.
  - destruct l2 as [| b t2].
    { specialize (H (App.strike a)). simpl in H.
      rewrite hasStrike_self in H. discriminate. }
    inversion S1 as [| ? ? S1' F1]; subst.
    inversion S2 as [| ? ? S2' F2]; subst.
    rewrite Forall_forall in F1, F2.
    assert (Hab : App.strike a = App.strike b).
    { assert (Ha : In a (b :: t2)).
      { apply (proj1 (filter_In (App.hasStrike (App.strike a)) a (b :: t2))).
        rewrite <- H. simpl. rewrite hasStrike_self. now left. }
      assert (Hb : In b (a :: t1)).
      { apply (proj1 (filter_In (App.hasStrike (App.strike b)) b (a :: t1))).
        rewrite H. simpl. rewrite hasStrike_self. now left. }
      assert (L1 : App.strike b <= App.strike a).
      { destruct Ha as [-> | Ha]; [lra | exact (F2 a Ha)]. }
      assert (L2 : App.strike a <= App.strike b).
      { destruct Hb as [-> | Hb]; [lra | exact (F1 b Hb)]. }
      lra. }
    assert (E : a = b).
    { specialize (H (App.strike a)). simpl in H.
      rewrite hasStrike_self in H. rewrite Hab in H at 2.
      rewrite hasStrike_self in H. now injection H. }
    subst b. f_equal. apply IH; [exact S1' | exact S2' |].
    intros s. specialize (H s). simpl in H.
    destruct (App.hasStrike s a); [now injection H | exact H].
Qed.

Lemma sortedOptions_canonical l l' :
  (forall s, filter (App.hasStrike s) l' = filter (App.hasStrike s) l) ->
  App.sortedOptions l' = App.sortedOptions l.
Proof.
  intros H. apply sorted_unique; try apply sortedOptions_sorted.
  intros s. now rewrite !sortedOptions_stable.
Qed.

(** ** The order of the fields of a chart point *)

Lemma obj_keys_set k v o :
  App.obj_keys (App.obj_set k v o) = App.addKey (App.obj_keys o) k.
Proof.
  unfold App.addKey. induction o as [| [k' v'] o IH]; simpl; [reflexivity |].
  rewrite (String.eqb_sym k k').
  destruct (String.eqb k' k); simpl; [reflexivity |].
  rewrite IH. now destruct (existsb (String.eqb k) (App.obj_keys o)).
Qed.

Lemma chartFields_keys numberToString cfg d sorted : forall cp,
  App.obj_keys (App.chartFields numberToString cfg d sorted cp)
  = App.keysAfter (App.obj_keys cp) (map (App.chartKey numberToString) sorted).
Proof.
  induction sorted as [| o l IH]; intros cp; simpl; [reflexivity |].
  rewrite IH, obj_keys_set. reflexivity.
Qed.

Lemma existsb_eqb_false k ks :
  ~ In k ks -> existsb (String.eqb k) ks = false.
Proof.
  intros H. apply not_true_is_false. intros E.
  apply existsb_exists in E. destruct E as (x & Hx & E).
  apply String.eqb_eq in E. now subst x.
Qed.

Lemma keysAfter_NoDup ks : forall keys,
  NoDup (keys ++ ks) -> App.keysAfter keys ks = (keys ++ ks)%list.
Proof.
  induction ks as [| k ks IH]; intros keys H; simpl.
  - now rewrite app_nil_r.
  - assert (Hk : ~ In k keys).
    { intros Hin. apply NoDup_remove_2 in H. apply H.
      apply in_or_app. now left. }
    unfold App.addKey at 1. rewrite (existsb_eqb_false k keys Hk).
    rewrite IH; rewrite <- app_assoc; [reflexivity | exact H].
Qed.

Lemma chart_keys_NoDup numberToString l :
  NoDup (map (App.chartKey numberToString) l) ->
  NoDup ((["name"; "price"] ++ map (App.chartKey numberToString) l)%list).
Proof.
  intros H. simpl.
  constructor; [| constructor; [| exact H]].
  - intros [E | Hin]; [discriminate |].
    apply in_map_iff in Hin. destruct Hin as (o & E & _).
    symmetry in E. now apply chartKey_not_name in E.
  - intros Hin. apply in_map_iff in Hin. destruct Hin as (o & E & _).
    symmetry in E. now apply chartKey_not_price in E.
Qed.

(** ** Claims on the order of the contracts *)

(** C6: the contracts are sorted ascending by strike, by a stable sort (the
    contracts of each strike keep their input order); the rows of the
    grouped table and the fields of the chart points follow that order at
    every offset (a repeated chart key keeps its first place); two inputs
    with the same contracts at every strike, in the same order, give the
    same outputs; and strikes [420, 270, 340] come out as
    [270, 340, 420]. *)
Theorem sortedOptions_order (numberToString : R -> string)
    (cfg : App.config) (options : list App.contract) :
  Permutation options (App.sortedOptions options)
  /\ StronglySorted App.strikeLe (App.sortedOptions options)
  /\ (forall s,
        filter (App.hasStrike s) (App.sortedOptions options)
        = filter (App.hasStrike s) options)
  /\ (forall r,
        In r (App.groupedResults (App.simulate numberToString cfg options)) ->
        map App.d_strike (App.details r)
        = map App.strike (App.sortedOptions options)
        /\ map App.d_type (App.details r)
           = map App.type (App.sortedOptions options))
  /\ (forall pt,
        In pt (App.chartData (App.simulate numberToString cfg options)) ->
        App.obj_keys pt
        = App.keysAfter ["name"; "price"]
            (map (App.chartKey numberToString) (App.sortedOptions options))
        /\ (NoDup (map (App.chartKey numberToString) options) ->
            App.obj_keys pt
            = "name" :: "price"
                :: map (App.chartKey numberToString)
                     (App.sortedOptions options)))
  /\ (forall options',
        (forall s, filter (App.hasStrike s) options'
                   = filter (App.hasStrike s) options) ->
        App.simulate numberToString cfg options'
        = App.simulate numberToString cfg options)
  /\ (forall a b c,
        App.strike a = 420 -> App.strike b = 270 -> App.strike c = 340 ->
        App.sortedOptions [a; b; c] = [b; c; a]
        /\ (forall r,
              In r (App.groupedResults
                      (App.simulate numberToString cfg [a; b; c])) ->
              map App.d_strike (App.details r) = [270; 340; 420])
        /\ (forall pt,
              In pt (App.chartData
                       (App.simulate numberToString cfg [a; b; c])) ->
              App.obj_keys pt
              = App.keysAfter ["name"; "price"]
                  [ App.chartKey numberToString b;
                    App.chartKey numberToString c;
                    App.chartKey numberToString a ])).
Proof.
  split; [apply sortedOptions_perm |].
  split; [apply sortedOptions_sorted |].
  split; [intros s; apply sortedOptions_stable |].
  split; [| split; [| split]].
  - intros r Hr. apply (proj1 (groupedResults_In _ _ _ _)) in Hr.
    destruct Hr as (d & _ & ->). simpl. rewrite !map_map. split; reflexivity.
  - intros pt Hpt. apply (proj1 (chartData_In _ _ _ _)) in Hpt.
    destruct Hpt as (d & _ & ->). rewrite chartFields_keys. simpl App.obj_keys.
    split; [reflexivity |]. intros Hnd.
    apply (keysAfter_NoDup _ ["name"; "price"]), chart_keys_NoDup.
    eapply Permutation_NoDup; [| exact Hnd].
    apply Permutation_map, sortedOptions_perm.
  - intros options' H. unfold App.simulate.
    now rewrite (sortedOptions_canonical options options' H).
  - intros a b c Ha Hb Hc.
    assert (E : App.sortedOptions [a; b; c] = [b; c; a]).
    { simpl. rewrite Hb, Hc.
      rewrite (proj2 (Rltb_false 0 (270 - 340))) by lra.
      simpl. rewrite Ha, Hb, Hc.
      rewrite (proj2 (Rltb_true 0 (420 - 270))) by lra.
      rewrite (proj2 (Rltb_true 0 (420 - 340))) by lra.
      reflexivity. }
    split; [exact E | split].
    + intros r Hr. apply (proj1 (groupedResults_In _ _ _ _)) in Hr.
      destruct Hr as (d & _ & ->). rewrite E. simpl.
      now rewrite Ha, Hb, Hc.
    + intros pt Hpt. apply (proj1 (chartData_In _ _ _ _)) in Hpt.
      destruct Hpt as (d & _ & ->). rewrite chartFields_keys, E. reflexivity.
Qed.

Lemma sortedOptions_order_witness :
  App.strike App.deepOtmCall = 420
  /\ App.strike App.deepItmCall = 270
  /\ App.strike App.atmCall = 340
  /\ App.sortedOptions [App.deepOtmCall; App.deepItmCall; App.atmCall]
     = [App.deepItmCall; App.atmCall; App.deepOtmCall].
Proof.
  repeat split.
  apply (proj2 (proj2 (proj2 (proj2 (proj2 (proj2
    (sortedOptions_order App.integerToString App.DEFAULT_CONFIG []))))))
    App.deepOtmCall App.deepItmCall App.atmCall); reflexivity.
Defined.

(** ** Bounds on the approximation *)

Ltac pos_product a b :=
  let H := fresh "P" in
  assert (H : 0 <= a * b) by (apply Rmult_le_pos; lra).

Lemma horner_nonneg t : 0 <= t <= 1 -> 0 <= BlackScholes.horner t.
Proof.
  intros [H0 H1].
  unfold BlackScholes.horner, BlackScholes.a1, BlackScholes.a2,
    BlackScholes.a3, BlackScholes.a4, BlackScholes.a5.
  pose proof (Rle_0_sqr (t - 0.6845)) as S1.
  pose proof (Rle_0_sqr (t - 0.158)) as S2. unfold Rsqr in S1, S2.
  pos_product t t.
  pos_product (t * t)
    (1.061405429 * (t * t) - 1.453152027 * t + 1.421413741 - 0.9).
  apply Rmult_le_pos; lra.
Qed.

Lemma horner_le_1 t : 0 <= t <= 1 -> BlackScholes.horner t <= 1.
Proof.
  intros [H0 H1].
  unfold BlackScholes.horner, BlackScholes.a1, BlackScholes.a2,
    BlackScholes.a3, BlackScholes.a4, BlackScholes.a5.
  pos_product t t.
  pos_product (t * t) (1 - t).
  pos_product (t * t) (t * t).
  pos_product (1 - t)
    (0.999999999 + 0.745170407 * t + 1.029667143 * (t * t)
     - 0.391746598 * (t * t * t) + 1.061405429 * (t * t * t * t)).
  lra.
Qed.

Lemma horner_lipschitz u v :
  0 <= v <= u -> u <= 1 ->
  BlackScholes.horner u - BlackScholes.horner v <= 10 * (u - v).
Proof.
  intros [H0 H1] H2.
  unfold BlackScholes.horner, BlackScholes.a1, BlackScholes.a2,
    BlackScholes.a3, BlackScholes.a4, BlackScholes.a5.
  pos_product u u. pos_product v v. pos_product u v.
  pos_product (1 - u) u. pos_product (1 - v) v. pos_product (1 - u) v.
  pos_product (u * u) u. pos_product (v * v) v.
  pos_product (u * u) v. pos_product (u * v) v.
  pos_product (u * u) (u * u). pos_product (v * v) (v * v).
  pos_product (u * u) (u * v). pos_product (u * u) (v * v).
  pos_product (u * v) (v * v).
  pos_product (u * u) (1 - u * u). pos_product (u * u) (1 - u * v).
  pos_product (u * u) (1 - v * v). pos_product (u * v) (1 - v * v).
  pos_product (v * v) (1 - v * v).
  pos_product (u - v)
    (10 - (0.254829592 - 0.284496736 * (u + v)
       + 1.421413741 * (u * u + u * v + v * v)
       - 1.453152027 * (u * u * u + u * u * v + u * v * v + v * v * v)
       + 1.061405429 * (u * u * u * u + u * u * u * v + u * u * v * v
                        + u * v * v * v + v * v * v * v))).
  lra.
Qed.

Lemma p_range : 0 < BlackScholes.p < 1.
Proof. unfold BlackScholes.p. lra. Qed.

Lemma inv_diff A B : 1 <= A <= B -> 0 <= / A - / B <= B - A.
Proof.
  intros [H1 H2].
  assert (HA : 0 < / A) by (apply Rinv_0_lt_compat; lra).
  assert (HB : 0 < / B) by (apply Rinv_0_lt_compat; lra).
  assert (LA : / A <= 1).
  { rewrite <- Rinv_1. apply Rinv_le_contravar; lra. }
  assert (LB : / B <= 1).
  { rewrite <- Rinv_1. apply Rinv_le_contravar; lra. }
  assert (E : / A - / B = (B - A) * (/ A * / B)) by (field; lra).
  pos_product (/ A) (/ B).
  pos_product (/ A) (1 - / B).
  pos_product (B - A) (/ A * / B).
  pos_product (B - A) (1 - / A * / B).
  lra.
Qed.

Lemma t_range x : 0 <= x -> 0 < 1 / (1 + BlackScholes.p * x) <= 1.
Proof.
  intros Hx. pose proof p_range as [Hp _].
  pos_product BlackScholes.p x.
  destruct (inv_diff 1 (1 + BlackScholes.p * x)) as [H1 _]; [lra |].
  rewrite Rinv_1 in H1.
  assert (0 < / (1 + BlackScholes.p * x)) by (apply Rinv_0_lt_compat; lra).
  unfold Rdiv. lra.
Qed.

Lemma exp_nonpos x : x <= 0 -> 0 < exp x <= 1.
Proof.
  intros H. split; [apply exp_pos |].
  destruct H as [H | ->].
  - apply Rlt_le. rewrite <- exp_0. now apply exp_increasing.
  - rewrite exp_0. lra.
Qed.

Lemma exp_neg_square x : 0 < exp (- x * x) <= 1.
Proof.
  apply exp_nonpos. pose proof (Rle_0_sqr x) as H. unfold Rsqr in H. lra.
Qed.

Lemma y_bounds x : 0 <= x -> 0 <= BlackScholes.y x <= 1.
Proof.
  intros Hx. unfold BlackScholes.y. cbv zeta.
  pose proof (t_range x Hx) as [T0 T1].
  pose proof (horner_nonneg _ (conj (Rlt_le _ _ T0) T1)) as H0.
  pose proof (horner_le_1 _ (conj (Rlt_le _ _ T0) T1)) as H1.
  pose proof (exp_neg_square x) as [E0 E1].
  set (h := BlackScholes.horner (1 / (1 + BlackScholes.p * x))) in *.
  set (e := exp (- x * x)) in *. clearbody h e.
  pos_product h e. pos_product (1 - h) e. lra.
Qed.

Lemma y_lipschitz x1 x2 :
  0 <= x1 <= x2 ->
  BlackScholes.y x2 - BlackScholes.y x1
  <= 10 * (x2 - x1) + (x2 * x2 - x1 * x1).
Proof.
  intros [H1 H2]. unfold BlackScholes.y. cbv zeta.
  pose proof p_range as [Hp0 Hp1].
  pose proof (t_range x1 H1) as [T10 T11].
  assert (H2' : 0 <= x2) by lra.
  pose proof (t_range x2 H2') as [T20 T21].
  pos_product BlackScholes.p x1. pos_product BlackScholes.p (x2 - x1).
  pos_product (1 - BlackScholes.p) (x2 - x1).
  destruct (inv_diff (1 + BlackScholes.p * x1) (1 + BlackScholes.p * x2))
    as [D0 D1]; [lra |].
  unfold Rdiv in *. rewrite !Rmult_1_l in *.
  set (t1 := / (1 + BlackScholes.p * x1)) in *.
  set (t2 := / (1 + BlackScholes.p * x2)) in *.
  assert (HL : BlackScholes.horner t1 - BlackScholes.horner t2
               <= 10 * (t1 - t2)) by (apply horner_lipschitz; lra).
  assert (Hh : 0 <= BlackScholes.horner t2 <= 1).
  { split; [apply horner_nonneg | apply horner_le_1]; lra. }
  pose proof (exp_neg_square x1) as [E10 E11].
  pos_product (x2 - x1) (x2 + x1).
  assert (Ee : exp (- x2 * x2)
               = exp (- x1 * x1) * exp (- (x2 * x2 - x1 * x1))).
  { rewrite <- exp_plus. f_equal. ring. }
  pose proof (exp_ineq1_le (- (x2 * x2 - x1 * x1))) as Ei.
  assert (Eu : 0 < exp (- (x2 * x2 - x1 * x1)) <= 1)
    by (apply exp_nonpos; lra).
  set (h1 := BlackScholes.horner t1) in *.
  set (h2 := BlackScholes.horner t2) in *.
  set (e1 := exp (- x1 * x1)) in *.
  set (w := exp (- (x2 * x2 - x1 * x1))) in *.
  rewrite Ee. set (U := x2 * x2 - x1 * x1) in *.
  clearbody h1 h2 e1 w t1 t2 U.
  (* h1 e1 - h2 e1 w = (h1 - h2) e1 + h2 e1 (1 - w) *)
  pos_product (10 * (x2 - x1) - (h1 - h2)) e1.
  pos_product (10 * (x2 - x1)) (1 - e1).
  pos_product e1 (1 - w).
  pos_product (1 - h2) (e1 * (1 - w)).
  pos_product (1 - e1) (1 - w).
  pos_product h2 (e1 * (1 - w)).
  lra.
Qed.

Lemma erf_nonneg_arg x : 0 <= x -> BlackScholes.erf x = BlackScholes.y x.
Proof.
  intros H. unfold BlackScholes.erf, BlackScholes.sign. cbv zeta.
  rewrite (proj2 (Rleb_true 0 x) H), Rabs_right by lra. ring.
Qed.

Lemma erf_neg_arg x : x < 0 -> BlackScholes.erf x = - BlackScholes.y (- x).
Proof.
  intros H. unfold BlackScholes.erf, BlackScholes.sign. cbv zeta.
  rewrite (proj2 (Rleb_false 0 x) H), Rabs_left by lra. ring.
Qed.

Lemma sqrt2_inv : 0 < / sqrt 2 <= 1.
Proof.
  assert (H : 1 <= sqrt 2).
  { rewrite <- sqrt_1 at 1. apply sqrt_le_1_alt. lra. }
  split.
  - apply Rinv_0_lt_compat. lra.
  - rewrite <- Rinv_1. apply Rinv_le_contravar; lra.
Qed.

Lemma sqrt2_inv_square : / sqrt 2 * / sqrt 2 = / 2.
Proof.
  rewrite <- Rinv_mult, sqrt_sqrt by lra. reflexivity.
Qed.

(** Below zero the distribution function is at most one half. *)
Lemma standardNormalCDF_neg x :
  x < 0 -> BlackScholes.standardNormalCDF x <= / 2.
Proof.
  intros H. unfold BlackScholes.standardNormalCDF.
  pose proof sqrt2_inv as [S0 S1].
  assert (Hx : x / sqrt 2 < 0).
  { unfold Rdiv.
    assert (P : 0 < - x * / sqrt 2) by (apply Rmult_lt_0_compat; lra).
    lra. }
  rewrite (erf_neg_arg _ Hx).
  destruct (y_bounds (- (x / sqrt 2))) as [Y0 _]; lra.
Qed.

Lemma standardNormalCDF_le_1 x :
  0 <= x -> BlackScholes.standardNormalCDF x <= 1.
Proof.
  intros H. unfold BlackScholes.standardNormalCDF.
  pose proof sqrt2_inv as [S0 S1].
  assert (Hx : 0 <= x / sqrt 2) by (apply Rmult_le_pos; lra).
  rewrite (erf_nonneg_arg _ Hx).
  destruct (y_bounds _ Hx) as [_ Y1]. lra.
Qed.

Lemma standardNormalCDF_lipschitz d' d :
  0 <= d' <= d ->
  BlackScholes.standardNormalCDF d - BlackScholes.standardNormalCDF d'
  <= 5 * (d - d') + (d * d - d' * d') / 4.
Proof.
  intros [H1 H2]. unfold BlackScholes.standardNormalCDF.
  pose proof sqrt2_inv as [S0 S1]. pose proof sqrt2_inv_square as S2.
  unfold Rdiv at 2 4.
  assert (Hx' : 0 <= d' * / sqrt 2) by (apply Rmult_le_pos; lra).
  assert (Hxx : d' * / sqrt 2 <= d * / sqrt 2)
    by (apply Rmult_le_compat_r; lra).
  rewrite !erf_nonneg_arg by lra.
  pose proof (y_lipschitz _ _ (conj Hx' Hxx)) as HL.
  assert (E1 : d * / sqrt 2 * (d * / sqrt 2) = d * d * / 2).
  { rewrite <- S2. ring. }
  assert (E2 : d' * / sqrt 2 * (d' * / sqrt 2) = d' * d' * / 2).
  { rewrite <- S2. ring. }
  rewrite E1, E2 in HL.
  pos_product (d - d') (1 - / sqrt 2).
  lra.
Qed.

Lemma ln_near_1 u : 0 < u <= / 2 -> - 2 * u <= ln (1 - u) < 0.
Proof.
  intros [H0 H1]. split.
  - assert (E : exp (- 2 * u) <= 1 - u).
    { pose proof (exp_ineq1_le (2 * u)) as Hi.
      pose proof (exp_pos (- 2 * u)) as Hp.
      assert (Em : exp (2 * u) * exp (- 2 * u) = 1).
      { rewrite <- exp_plus, <- exp_0. f_equal. ring. }
      pos_product (exp (2 * u) - (1 + 2 * u)) (exp (- 2 * u)).
      pos_product u (1 - 2 * u).
      (* (1 + 2u) e <= 1 <= (1 - u) (1 + 2u) *)
      apply (Rmult_le_reg_l (1 + 2 * u)); lra. }
    rewrite <- (ln_exp (- 2 * u)).
    destruct E as [E | E].
    + apply Rlt_le, ln_increasing; [apply exp_pos | exact E].
    + rewrite E. lra.
  - rewrite <- ln_1. apply ln_increasing; lra.
Qed.

(** ** Claims on the monotonicity in the spot *)

(** C9, as stated, fails: with strike 340, one year to expiry, rate 0.045
    and volatility 0.3, the spot 340 brings [d2] to zero, where the
    approximated distribution function jumps from at most 0.5 to
    0.5000000005, and the price at 340 is below the price at
    339.999999999. *)
Lemma price_decreases_where_d2_reaches_0 :
  0 < 339.999999999 <= 340
  /\ BlackScholes.blackScholesCall 340 340 1 0.045 0.3
     < BlackScholes.blackScholesCall 339.999999999 340 1 0.045 0.3.
Proof.
  split; [lra |].
  unfold BlackScholes.blackScholesCall.
  rewrite (proj2 (Rleb_false 1 0)) by lra.
  unfold BlackScholes.d2, BlackScholes.d1. rewrite sqrt_1.
  (* the spot 340 *)
  replace (340 / 340) with 1 by lra. rewrite ln_1.
  replace ((0 + (0.045 + 0.5 * 0.3 ^ 2) * 1) / (0.3 * 1)) with 0.3
    by (simpl; lra).
  replace (0.3 - 0.3 * 1) with 0 by lra.
  rewrite standardNormalCDF_0.
  (* the spot 339.999999999 *)
  set (u := / 340000000000).
  replace (339.999999999 / 340) with (1 - u) by (unfold u; lra).
  destruct (ln_near_1 u) as [L0 L1]; [unfold u; lra |].
  set (L := ln (1 - u)) in *.
  replace ((L + (0.045 + 0.5 * 0.3 ^ 2) * 1) / (0.3 * 1))
    with (0.3 + L / 0.3) by (simpl; lra).
  replace (0.3 + L / 0.3 - 0.3 * 1) with (L / 0.3) by lra.
  assert (Hu : u = / 340000000000) by reflexivity. clearbody u L.
  (* the four values of the distribution function *)
  assert (C2 : BlackScholes.standardNormalCDF (L / 0.3) <= / 2)
    by (apply standardNormalCDF_neg; lra).
  assert (C1 : BlackScholes.standardNormalCDF (0.3 + L / 0.3) <= 1)
    by (apply standardNormalCDF_le_1; lra).
  assert (CL : BlackScholes.standardNormalCDF 0.3
               - BlackScholes.standardNormalCDF (0.3 + L / 0.3)
               <= 5 * (0.3 - (0.3 + L / 0.3))
                  + (0.3 * 0.3 - (0.3 + L / 0.3) * (0.3 + L / 0.3)) / 4)
    by (apply standardNormalCDF_lipschitz; lra).
  pose proof (exp_ineq1_le (- (0.045) * 1)) as HE.
  set (E := exp (- (0.045) * 1)) in *.
  set (c1 := BlackScholes.standardNormalCDF 0.3) in *.
  set (c1' := BlackScholes.standardNormalCDF (0.3 + L / 0.3)) in *.
  set (c2' := BlackScholes.standardNormalCDF (L / 0.3)) in *.
  clearbody E c1 c1' c2'.
  pos_product (- L) (- L).
  pos_product (E - 0.955) (0.5000000005 - c2').
  lra.
Qed.

Lemma d2_increasing S1 S2 K T r sigma :
  0 < K -> 0 < T -> 0 < sigma -> 0 < S1 < S2 ->
  BlackScholes.d2 S1 K T r sigma < BlackScholes.d2 S2 K T r sigma.
Proof.
  intros HK HT Hs [H1 H2]. unfold BlackScholes.d2, BlackScholes.d1.
  pose proof (sqrt_lt_R0 T HT) as Hq.
  assert (Hd : 0 < / (sigma * sqrt T)).
  { apply Rinv_0_lt_compat, Rmult_lt_0_compat; assumption. }
  assert (HKi : 0 < / K) by now apply Rinv_0_lt_compat.
  assert (Hl : ln (S1 / K) < ln (S2 / K)).
  { apply ln_increasing; unfold Rdiv.
    - now apply Rmult_lt_0_compat.
    - apply Rmult_lt_compat_r; assumption. }
  unfold Rdiv at 1 3.
  assert (P : 0 < (ln (S2 / K) - ln (S1 / K)) * / (sigma * sqrt T))
    by (apply Rmult_lt_0_compat; lra).
  lra.
Qed.

(** *** The price as a function of the spot

    With [w = sigma * sqrt(T) / sqrt(2)] and [u = d2 / sqrt(2)] the price is
    the discounted strike times [Analysis.ratio w u], and [u] increases with
    the spot.  On each of the intervals [0 <= u], [- w <= u < 0] and
    [u < - w] the quotient is a smooth function whose derivative is not
    negative; where [u + w] reaches zero it jumps upwards, and where [u]
    reaches zero it falls by [1e-9].  The bounds on the polynomials are
    read off their coefficients in the Bernstein basis. *)

Section SpotAnalysis.

Import Analysis.

Lemma bernstein_nonneg t (i j : nat) : 0 <= t <= 1 -> 0 <= t ^ i * (1 - t) ^ j.
Proof.
  intros [H0 H1]. apply Rmult_le_pos; apply pow_le; lra.
Qed.

Ltac bernstein t H n :=
  let rec go i :=
    lazymatch i with
    | O => pose proof (bernstein_nonneg t O n H)
    | S ?i' =>
        pose proof (bernstein_nonneg t i (n - i) H); go i'
    end in
  go n; simpl Nat.sub in *.

Lemma horner'_nonneg t : 0 <= t <= 1 -> 0 <= horner' t.
Proof.
  intros H. unfold horner', BlackScholes.a1, BlackScholes.a2,
    BlackScholes.a3, BlackScholes.a4, BlackScholes.a5.
  bernstein t H 4%nat. lra.
Qed.

Lemma horner'_weighted t : 0 <= t <= 1 -> (1 - t) * horner' t <= 3 / 4.
Proof.
  intros H. unfold horner', BlackScholes.a1, BlackScholes.a2,
    BlackScholes.a3, BlackScholes.a4, BlackScholes.a5.
  bernstein t H 5%nat. lra.
Qed.

Lemma curve'_nonneg t : 0 <= t <= 1 -> 0 <= curve' t.
Proof.
  intros H. unfold curve', BlackScholes.a1, BlackScholes.a2,
    BlackScholes.a3, BlackScholes.a4, BlackScholes.a5.
  apply Rmult_le_pos; [lra |].
  bernstein t H 4%nat. lra.
Qed.

Lemma curve'_le t :
  0 <= t <= 1 -> BlackScholes.p * BlackScholes.p * curve' t <= 5 / 2.
Proof.
  intros H. unfold curve', BlackScholes.p, BlackScholes.a1, BlackScholes.a2,
    BlackScholes.a3, BlackScholes.a4, BlackScholes.a5.
  bernstein t H 5%nat. lra.
Qed.

(** The rules of differentiation, for functions written as abstractions. *)

Lemma d_value (f : R -> R) (x l l' : R) :
  l = l' -> derivable_pt_lim f x l -> derivable_pt_lim f x l'.
Proof. now intros ->. Qed.

Lemma d_const (c x : R) : derivable_pt_lim (fun _ => c) x 0.
Proof. exact (derivable_pt_lim_const c x). Qed.

Lemma d_id (x : R) : derivable_pt_lim (fun z => z) x 1.
Proof. exact (derivable_pt_lim_id x). Qed.

Lemma d_plus (f g : R -> R) (x l1 l2 : R) :
  derivable_pt_lim f x l1 -> derivable_pt_lim g x l2 ->
  derivable_pt_lim (fun z => f z + g z) x (l1 + l2).
Proof. exact (derivable_pt_lim_plus f g x l1 l2). Qed.

Lemma d_minus (f g : R -> R) (x l1 l2 : R) :
  derivable_pt_lim f x l1 -> derivable_pt_lim g x l2 ->
  derivable_pt_lim (fun z => f z - g z) x (l1 - l2).
Proof. exact (derivable_pt_lim_minus f g x l1 l2). Qed.

Lemma d_opp (f : R -> R) (x l : R) :
  derivable_pt_lim f x l -> derivable_pt_lim (fun z => - f z) x (- l).
Proof. exact (derivable_pt_lim_opp f x l). Qed.

Lemma d_mult (f g : R -> R) (x l1 l2 : R) :
  derivable_pt_lim f x l1 -> derivable_pt_lim g x l2 ->
  derivable_pt_lim (fun z => f z * g z) x (l1 * g x + f x * l2).
Proof. exact (derivable_pt_lim_mult f g x l1 l2). Qed.

Lemma d_exp (f : R -> R) (x l : R) :
  derivable_pt_lim f x l ->
  derivable_pt_lim (fun z => exp (f z)) x (exp (f x) * l).
Proof.
  intros H.
  exact (derivable_pt_lim_comp f exp x l (exp (f x)) H
           (derivable_pt_lim_exp (f x))).
Qed.

Lemma d_inv (f : R -> R) (x l : R) :
  derivable_pt_lim f x l -> f x <> 0 ->
  derivable_pt_lim (fun z => / f z) x (- l / (f x * f x)).
Proof.
  intros H Hx.
  apply (derivable_pt_lim_ext (fun z => 1 / f z)).
  - intros z. unfold Rdiv. ring.
  - apply (d_value _ _ ((0 * f x - l * 1) / Rsqr (f x))).
    + unfold Rsqr. field. exact Hx.
    + exact (derivable_pt_lim_div (fun _ => 1) f x 0 l
               (derivable_pt_lim_const 1 x) H Hx).
Qed.

Lemma d_comp (f g : R -> R) (g' : R) (x l : R) :
  derivable_pt_lim f x l -> derivable_pt_lim g (f x) g' ->
  derivable_pt_lim (fun z => g (f z)) x (g' * l).
Proof. intros H1 H2. exact (derivable_pt_lim_comp f g x l g' H1 H2). Qed.

Ltac derive :=
  repeat first
    [ apply d_const | apply d_id
    | eapply d_plus | eapply d_minus | eapply d_opp | eapply d_mult
    | eapply d_exp ].

Lemma horner_derivative t :
  derivable_pt_lim BlackScholes.horner t (horner' t).
Proof.
  unfold BlackScholes.horner.
  eapply d_value; [| derive].
  unfold horner'. simpl. lra.
Qed.

Lemma curve_derivative t : derivable_pt_lim curve t (curve' t).
Proof.
  unfold curve, horner'.
  eapply d_value; [| simpl; derive].
  unfold curve'. simpl. lra.
Qed.

Lemma tOf_range v : 0 <= v -> 0 < tOf v <= 1.
Proof. apply t_range. Qed.

Lemma tOf_diff v1 v2 :
  0 <= v1 -> 0 <= v2 ->
  tOf v1 - tOf v2 = BlackScholes.p * (v2 - v1) * tOf v1 * tOf v2.
Proof.
  intros H1 H2. pose proof p_range as [Hp _].
  pos_product BlackScholes.p v1. pos_product BlackScholes.p v2.
  unfold tOf. field. split; lra.
Qed.

Lemma tOf_weight v : 0 <= v -> BlackScholes.p * v * tOf v = 1 - tOf v.
Proof.
  intros H1. pose proof p_range as [Hp _].
  pos_product BlackScholes.p v.
  unfold tOf. field. lra.
Qed.

Lemma tOf_derivative v :
  0 <= v ->
  derivable_pt_lim tOf v (- BlackScholes.p * (tOf v * tOf v)).
Proof.
  intros Hv. pose proof p_range as [Hp _].
  pos_product BlackScholes.p v.
  apply (derivable_pt_lim_ext (fun z => / (1 + BlackScholes.p * z))).
  - intros z. unfold tOf, Rdiv. ring.
  - eapply d_value; [| apply d_inv; [derive | lra]].
    unfold tOf. field. lra.
Qed.

Lemma hornerAt_derivative v :
  0 <= v -> derivable_pt_lim hornerAt v (hornerAt' v).
Proof.
  intros Hv. unfold hornerAt.
  eapply d_value;
    [| apply (d_comp tOf BlackScholes.horner (horner' (tOf v)) v _
                (tOf_derivative v Hv) (horner_derivative (tOf v)))].
  unfold hornerAt', curve. simpl. ring.
Qed.

Lemma hornerAt_range v : 0 <= v -> 0 <= hornerAt v <= 1.
Proof.
  intros Hv. destruct (tOf_range v Hv) as [T0 T1]. unfold hornerAt.
  split; [apply horner_nonneg | apply horner_le_1]; lra.
Qed.

(** [hornerAt] decreases, slowly when weighted by its argument. *)
Lemma hornerAt_decreasing v1 v2 :
  0 <= v1 <= v2 ->
  0 <= hornerAt v1 - hornerAt v2
  /\ v1 * (hornerAt v1 - hornerAt v2) <= 3 / 4 * (v2 - v1).
Proof.
  intros [H1 H2]. assert (H2' : 0 <= v2) by lra.
  destruct H2 as [H2 | <-]; [| split; lra].
  pose proof p_range as [Hp _].
  destruct (tOf_range v1 H1) as [A0 A1].
  destruct (tOf_range v2 H2') as [B0 B1].
  pose proof (tOf_diff v1 v2 H1 H2') as D.
  pose proof (tOf_weight v1 H1) as W.
  set (t1 := tOf v1) in *. set (t2 := tOf v2) in *.
  assert (Dp : 0 < t1 - t2).
  { rewrite D.
    apply Rmult_lt_0_compat; [| lra].
    apply Rmult_lt_0_compat; [| lra].
    apply Rmult_lt_0_compat; lra. }
  destruct (MVT_cor2 BlackScholes.horner horner' t2 t1) as (c & Ec & Hc);
    [lra | intros; apply horner_derivative |].
  unfold hornerAt. fold t1 t2. rewrite Ec.
  assert (Hc' : 0 <= c <= 1) by lra.
  pose proof (horner'_nonneg c Hc') as N.
  pose proof (horner'_weighted c Hc') as Wc.
  split; [apply Rmult_le_pos; lra |].
  rewrite D.
  replace (v1 * (horner' c * (BlackScholes.p * (v2 - v1) * t1 * t2)))
    with (horner' c * (BlackScholes.p * v1 * t1) * t2 * (v2 - v1)) by ring.
  rewrite W.
  set (A := horner' c) in *. clearbody A t1 t2.
  pos_product A (t1 - c).
  pos_product A (1 - t1).
  pos_product (A * (1 - t1)) (1 - t2).
  pos_product (3 / 4 - A * (1 - t1) * t2) (v2 - v1).
  lra.
Qed.

(** The derivative of [hornerAt] increases, at a rate of at most 5/2. *)
Lemma hornerAt'_increasing v1 v2 :
  0 <= v1 <= v2 -> 0 <= hornerAt' v2 - hornerAt' v1 <= 5 / 2 * (v2 - v1).
Proof.
  intros [H1 H2]. assert (H2' : 0 <= v2) by lra.
  destruct H2 as [H2 | <-]; [| split; lra].
  pose proof p_range as [Hp _].
  destruct (tOf_range v1 H1) as [A0 A1].
  destruct (tOf_range v2 H2') as [B0 B1].
  pose proof (tOf_diff v1 v2 H1 H2') as D.
  unfold hornerAt'.
  set (t1 := tOf v1) in *. set (t2 := tOf v2) in *.
  assert (Dp : 0 < t1 - t2).
  { rewrite D.
    apply Rmult_lt_0_compat; [| lra].
    apply Rmult_lt_0_compat; [| lra].
    apply Rmult_lt_0_compat; lra. }
  destruct (MVT_cor2 curve curve' t2 t1) as (c & Ec & Hc);
    [lra | intros; apply curve_derivative |].
  assert (Hc' : 0 <= c <= 1) by lra.
  pose proof (curve'_nonneg c Hc') as N.
  pose proof (curve'_le c Hc') as L.
  replace (- BlackScholes.p * curve t2 - - BlackScholes.p * curve t1)
    with (BlackScholes.p * (curve t1 - curve t2)) by ring.
  rewrite Ec, D.
  replace (BlackScholes.p
           * (curve' c * (BlackScholes.p * (v2 - v1) * t1 * t2)))
    with (BlackScholes.p * BlackScholes.p * curve' c * (t1 * t2) * (v2 - v1))
    by ring.
  set (A := BlackScholes.p * BlackScholes.p * curve' c) in *.
  assert (NA : 0 <= A).
  { unfold A. apply Rmult_le_pos; [apply Rmult_le_pos; lra | exact N]. }
  clearbody A t1 t2.
  pos_product t1 t2. pos_product (1 - t1) t2.
  pos_product A (t1 * t2). pos_product A (1 - t1 * t2).
  pos_product (A * (t1 * t2)) (v2 - v1).
  pos_product (5 / 2 - A * (t1 * t2)) (v2 - v1).
  split; lra.
Qed.

Lemma gauss_range u : 0 < gauss u <= 1.
Proof. apply exp_neg_square. Qed.

Lemma gauss_derivative u : derivable_pt_lim gauss u (- 2 * u * gauss u).
Proof.
  unfold gauss. eapply d_value; [| derive]. cbv beta. ring.
Qed.

Lemma bell_derivative s k u :
  0 <= s * u + k -> derivable_pt_lim (bell s k) u (bell' s k u).
Proof.
  intros Hv. unfold bell.
  eapply d_value;
    [| apply d_mult;
       [apply gauss_derivative
       | apply (d_comp (fun z => s * z + k) hornerAt (hornerAt' (s * u + k)) u);
         [derive | apply hornerAt_derivative; exact Hv]]].
  unfold bell'. cbv beta. ring.
Qed.

Lemma growth_derivative w u :
  derivable_pt_lim (growth w) u (2 * w * growth w u).
Proof.
  unfold growth. eapply d_value; [| derive]. cbv beta. ring.
Qed.

Lemma growth_gauss w u : growth w u * gauss (u + w) = gauss u.
Proof.
  unfold growth, gauss. rewrite <- exp_plus. f_equal. ring.
Qed.

Lemma growth_above_gauss w u : 0 < gauss u <= growth w u.
Proof.
  pose proof (gauss_range u) as [G0 G1].
  pose proof (gauss_range (u + w)) as [A0 A1].
  pose proof (growth_gauss w u) as E.
  assert (P : 0 < growth w u) by apply exp_pos.
  pos_product (growth w u) (1 - gauss (u + w)). lra.
Qed.

Lemma above_derivative w u :
  0 < w -> 0 <= u -> derivable_pt_lim (above w) u (above' w u).
Proof.
  intros Hw Hu. unfold above, above', Rdiv.
  eapply d_value;
    [| apply d_minus;
       [apply d_minus; [apply growth_derivative | apply d_const]
       | apply d_mult;
         [apply d_minus; apply bell_derivative; lra | apply d_const]]].
  cbv beta. ring.
Qed.

Lemma across_derivative w u :
  0 < w -> - w <= u <= 0 -> derivable_pt_lim (across w) u (across' w u).
Proof.
  intros Hw Hu. unfold across, across', Rdiv.
  eapply d_value;
    [| apply d_minus;
       [apply growth_derivative
       | apply d_mult;
         [apply d_plus; apply bell_derivative; lra | apply d_const]]].
  cbv beta. ring.
Qed.

Lemma below_derivative w u :
  0 < w -> u <= - w -> derivable_pt_lim (below w) u (below' w u).
Proof.
  intros Hw Hu. unfold below, below', Rdiv.
  eapply d_value;
    [| apply d_mult;
       [apply d_minus; apply bell_derivative; lra | apply d_const]].
  cbv beta. ring.
Qed.

(** The derivatives of the three formulas are not negative. *)
Lemma above'_nonneg w u : 0 < w -> 0 <= u -> 0 <= above' w u.
Proof.
  intros Hw Hu. unfold above', bell'.
  pose proof (growth_above_gauss w u) as [G0 G1].
  destruct (hornerAt_decreasing u (u + w)) as [D0 D1]; [lra |].
  destruct (hornerAt'_increasing u (u + w)) as [I0 I1]; [lra |].
  replace (1 * u + w) with (u + w) by ring.
  replace (1 * u + 0) with u by ring.
  set (e := gauss u) in *. set (E := growth w u) in *.
  set (h1 := hornerAt u) in *. set (h2 := hornerAt (u + w)) in *.
  set (k1 := hornerAt' u) in *. set (k2 := hornerAt' (u + w)) in *.
  clearbody e E h1 h2 k1 k2.
  pos_product w (E - e).
  pos_product e (4 * w - (2 * (u * (h1 - h2)) + (k2 - k1))).
  lra.
Qed.

Lemma across'_nonneg w u : 0 < w -> - w <= u <= 0 -> 0 <= across' w u.
Proof.
  intros Hw Hu. unfold across', bell'.
  pose proof (growth_above_gauss w u) as [G0 G1].
  replace (1 * u + w) with (u + w) by ring.
  replace (-1 * u + 0) with (- u) by ring.
  destruct (hornerAt_range (u + w)) as [A0 A1]; [lra |].
  destruct (hornerAt_range (- u)) as [B0 B1]; [lra |].
  assert (K : hornerAt' (u + w) - hornerAt' (- u) <= 4 * (u + w)).
  { destruct (Rle_lt_dec (u + w) (- u)) as [C | C].
    - destruct (hornerAt'_increasing (u + w) (- u)) as [I0 I1]; lra.
    - destruct (hornerAt'_increasing (- u) (u + w)) as [I0 I1]; lra. }
  set (e := gauss u) in *. set (E := growth w u) in *.
  set (h1 := hornerAt (- u)) in *. set (h2 := hornerAt (u + w)) in *.
  set (k1 := hornerAt' (- u)) in *. set (k2 := hornerAt' (u + w)) in *.
  clearbody e E h1 h2 k1 k2.
  pos_product w (E - e).
  pos_product (- u) (1 - h1). pos_product (- u) (1 - h2).
  pos_product e (4 * w - ((k2 - k1) - 2 * u * (h1 + h2))).
  lra.
Qed.

Lemma below'_nonneg w u : 0 < w -> u <= - w -> 0 <= below' w u.
Proof.
  intros Hw Hu. unfold below', bell'.
  pose proof (gauss_range u) as [G0 G1].
  replace (-1 * u + - w) with (- u - w) by ring.
  replace (-1 * u + 0) with (- u) by ring.
  destruct (hornerAt_decreasing (- u - w) (- u)) as [D0 D1]; [lra |].
  destruct (hornerAt'_increasing (- u - w) (- u)) as [I0 I1]; [lra |].
  set (e := gauss u) in *.
  set (h1 := hornerAt (- u - w)) in *. set (h2 := hornerAt (- u)) in *.
  set (k1 := hornerAt' (- u - w)) in *. set (k2 := hornerAt' (- u)) in *.
  clearbody e h1 h2 k1 k2.
  pos_product (- u) (h1 - h2).
  pos_product e ((k2 - k1) + 2 * (- u * (h1 - h2))).
  lra.
Qed.

(** A function whose derivative is not negative between two points does
    not decrease from the first to the second. *)
Lemma nondecreasing (f f' : R -> R) (a b : R) :
  a <= b ->
  (forall c, a <= c <= b -> derivable_pt_lim f c (f' c)) ->
  (forall c, a <= c <= b -> 0 <= f' c) ->
  f a <= f b.
Proof.
  intros [Hab | <-] Hd Hs; [| lra].
  destruct (MVT_cor2 f f' a b Hab Hd) as (c & Ec & Hc).
  assert (P : 0 <= f' c * (b - a)) by (apply Rmult_le_pos; [apply Hs |]; lra).
  lra.
Qed.

Lemma above_nondecreasing w u1 u2 :
  0 < w -> 0 <= u1 <= u2 -> above w u1 <= above w u2.
Proof.
  intros Hw [H1 H2]. apply (nondecreasing (above w) (above' w)); [exact H2 | |].
  - intros c Hc. apply above_derivative; lra.
  - intros c Hc. apply above'_nonneg; lra.
Qed.

Lemma across_nondecreasing w u1 u2 :
  0 < w -> - w <= u1 <= u2 -> u2 <= 0 -> across w u1 <= across w u2.
Proof.
  intros Hw [H1 H2] H3.
  apply (nondecreasing (across w) (across' w)); [exact H2 | |].
  - intros c Hc. apply across_derivative; lra.
  - intros c Hc. apply across'_nonneg; lra.
Qed.

Lemma below_nondecreasing w u1 u2 :
  0 < w -> u1 <= u2 <= - w -> below w u1 <= below w u2.
Proof.
  intros Hw [H1 H2]. apply (nondecreasing (below w) (below' w)); [exact H1 | |].
  - intros c Hc. apply below_derivative; lra.
  - intros c Hc. apply below'_nonneg; lra.
Qed.

Lemma hornerAt_0 : hornerAt 0 = 0.999999999.
Proof.
  unfold hornerAt, tOf.
  replace (1 / (1 + BlackScholes.p * 0)) with 1 by (field; lra).
  apply horner_1.
Qed.

Lemma gauss_0 : gauss 0 = 1.
Proof. unfold gauss. replace (- 0 * 0) with 0 by ring. apply exp_0. Qed.

(** Where the second argument reaches zero the quotient falls by 1e-9. *)
Lemma across_above_0 w : across w 0 = above w 0 + 0.000000001.
Proof.
  unfold across, above, bell.
  replace (-1 * 0 + 0) with 0 by ring. replace (1 * 0 + 0) with 0 by ring.
  rewrite gauss_0, hornerAt_0. lra.
Qed.

(** Where the first argument reaches zero it rises. *)
Lemma below_across w : below w (- w) <= across w (- w).
Proof.
  unfold below, across, bell, growth.
  replace (-1 * - w + - w) with 0 by ring.
  replace (-1 * - w + 0) with w by ring.
  replace (1 * - w + w) with 0 by ring.
  replace (2 * w * - w + w * w) with (- - w * - w) by ring.
  fold (gauss (- w)). rewrite hornerAt_0.
  pose proof (gauss_range (- w)) as [G0 G1]. lra.
Qed.

Lemma cdf_nonneg_arg u : 0 <= u -> cdf u = 1 - bell 1 0 u / 2.
Proof.
  intros Hu. unfold cdf, bell. rewrite (erf_nonneg_arg u Hu).
  unfold BlackScholes.y, hornerAt, tOf, gauss. cbv zeta.
  replace (1 * u + 0) with u by ring. lra.
Qed.

Lemma cdf_neg_arg u : u < 0 -> cdf u = bell (-1) 0 u / 2.
Proof.
  intros Hu. unfold cdf, bell. rewrite (erf_neg_arg u Hu).
  unfold BlackScholes.y, hornerAt, tOf, gauss. cbv zeta.
  replace (-1 * u + 0) with (- u) by ring.
  replace (- - u * - u) with (- u * u) by ring. lra.
Qed.

Lemma bell_shift s k w u :
  growth w u * bell s k (u + w) = gauss u * hornerAt (s * (u + w) + k).
Proof.
  unfold bell. rewrite <- Rmult_assoc, growth_gauss. reflexivity.
Qed.

Lemma ratio_above w u : 0 < w -> 0 <= u -> ratio w u = above w u.
Proof.
  intros Hw Hu. unfold ratio, above.
  rewrite (cdf_nonneg_arg u Hu), (cdf_nonneg_arg (u + w)) by lra.
  pose proof (bell_shift 1 0 w u) as B.
  replace (1 * (u + w) + 0) with (1 * u + w) in B by ring.
  fold (bell 1 w u) in B. lra.
Qed.

Lemma ratio_across w u : 0 < w -> - w <= u < 0 -> ratio w u = across w u.
Proof.
  intros Hw Hu. unfold ratio, across.
  rewrite (cdf_neg_arg u), (cdf_nonneg_arg (u + w)) by lra.
  pose proof (bell_shift 1 0 w u) as B.
  replace (1 * (u + w) + 0) with (1 * u + w) in B by ring.
  fold (bell 1 w u) in B. lra.
Qed.

Lemma ratio_below w u : 0 < w -> u < - w -> ratio w u = below w u.
Proof.
  intros Hw Hu. unfold ratio, below.
  rewrite (cdf_neg_arg u), (cdf_neg_arg (u + w)) by lra.
  pose proof (bell_shift (-1) 0 w u) as B.
  replace (-1 * (u + w) + 0) with (-1 * u + - w) in B by ring.
  fold (bell (-1) (- w) u) in B. lra.
Qed.

(** Below the point where the second argument is zero the quotient does
    not decrease. *)
Lemma ratio_nondecreasing_below_0 w u1 u2 :
  0 < w -> u1 <= u2 -> u2 < 0 -> ratio w u1 <= ratio w u2.
Proof.
  intros Hw H12 H2.
  destruct (Rlt_le_dec u2 (- w)) as [C2 | C2].
  - rewrite !ratio_below by lra. apply below_nondecreasing; lra.
  - rewrite (ratio_across w u2) by lra.
    destruct (Rlt_le_dec u1 (- w)) as [C1 | C1].
    + rewrite ratio_below by lra.
      apply Rle_trans with (below w (- w));
        [apply below_nondecreasing; lra |].
      apply Rle_trans with (across w (- w)); [apply below_across |].
      apply across_nondecreasing; lra.
    + rewrite ratio_across by lra. apply across_nondecreasing; lra.
Qed.

Lemma ratio_below_0 w u :
  0 < w -> u < 0 -> ratio w u <= above w 0 + 0.000000001.
Proof.
  intros Hw Hu. rewrite <- across_above_0.
  destruct (Rlt_le_dec u (- w)) as [C | C].
  - rewrite ratio_below by lra.
    apply Rle_trans with (below w (- w)); [apply below_nondecreasing; lra |].
    apply Rle_trans with (across w (- w)); [apply below_across |].
    apply across_nondecreasing; lra.
  - rewrite ratio_across by lra. apply across_nondecreasing; lra.
Qed.

(** Across that point it falls by at most 1e-9. *)
Lemma ratio_nondecreasing w u1 u2 :
  0 < w -> u1 <= u2 -> ratio w u1 <= ratio w u2 + 0.000000001.
Proof.
  intros Hw H12.
  destruct (Rlt_le_dec u2 0) as [C2 | C2].
  - pose proof (ratio_nondecreasing_below_0 w u1 u2 Hw H12 C2). lra.
  - rewrite (ratio_above w u2) by lra.
    pose proof (above_nondecreasing w 0 u2 Hw) as A0.
    destruct (Rlt_le_dec u1 0) as [C1 | C1].
    + pose proof (ratio_below_0 w u1 Hw C1). lra.
    + rewrite ratio_above by lra.
      pose proof (above_nondecreasing w u1 u2 Hw). lra.
Qed.

Lemma standardNormalCDF_cdf x :
  BlackScholes.standardNormalCDF x = cdf (x / sqrt 2).
Proof. reflexivity. Qed.

(** The spot is the discounted strike times the growth factor. *)
Lemma spot_growth S K T r sigma :
  0 < S -> 0 < K -> 0 < T -> 0 < sigma ->
  S = K * exp (- r * T)
      * growth (sigma * sqrt T / sqrt 2)
          (BlackScholes.d2 S K T r sigma / sqrt 2).
Proof.
  intros HS HK HT Hs. unfold growth, BlackScholes.d2, BlackScholes.d1.
  pose proof (sqrt_lt_R0 T HT) as Hq.
  pose proof (sqrt_sqrt T (Rlt_le _ _ HT)) as Hqq.
  pose proof sqrt2_inv as [S0 _]. pose proof sqrt2_inv_square as S2.
  assert (Hw : sigma * sqrt T <> 0).
  { apply Rgt_not_eq, Rmult_lt_0_compat; assumption. }
  set (L := ln (S / K) + (r + 0.5 * sigma ^ 2) * T).
  set (w := sigma * sqrt T) in *.
  assert (Hww : w * w = sigma * sigma * T).
  { unfold w. rewrite <- Hqq at 3. ring. }
  assert (E : 2 * (w / sqrt 2) * ((L / w - w) / sqrt 2)
              + w / sqrt 2 * (w / sqrt 2)
              = ln (S / K) + r * T).
  { unfold Rdiv.
    replace (2 * (w * / sqrt 2) * ((L * / w - w) * / sqrt 2)
             + w * / sqrt 2 * (w * / sqrt 2))
      with (2 * (/ sqrt 2 * / sqrt 2) * (w * / w * L - w * w)
            + / sqrt 2 * / sqrt 2 * (w * w)) by ring.
    rewrite S2, (Rinv_r w Hw), Hww. unfold L. simpl. lra. }
  rewrite E, exp_plus, exp_ln by (apply Rdiv_lt_0_compat; assumption).
  assert (X : exp (- r * T) * exp (r * T) = 1).
  { rewrite <- exp_plus. replace (- r * T + r * T) with 0 by ring.
    apply exp_0. }
  replace (K * exp (- r * T) * (S / K * exp (r * T)))
    with (S * (exp (- r * T) * exp (r * T))) by (field; lra).
  rewrite X. ring.
Qed.

(** The price is the discounted strike times the quotient. *)
Lemma price_ratio S K T r sigma :
  0 < S -> 0 < K -> 0 < T -> 0 < sigma ->
  BlackScholes.blackScholesCall S K T r sigma
  = K * exp (- r * T)
    * ratio (sigma * sqrt T / sqrt 2)
        (BlackScholes.d2 S K T r sigma / sqrt 2).
Proof.
  intros HS HK HT Hs. unfold BlackScholes.blackScholesCall.
  rewrite (proj2 (Rleb_false T 0)) by lra.
  rewrite !standardNormalCDF_cdf.
  rewrite (spot_growth S K T r sigma HS HK HT Hs) at 1.
  unfold ratio.
  replace (BlackScholes.d2 S K T r sigma / sqrt 2 + sigma * sqrt T / sqrt 2)
    with (BlackScholes.d1 S K T r sigma / sqrt 2)
    by (unfold BlackScholes.d2, Rdiv; ring).
  ring.
Qed.

(** Over the reals, the price at a spot exceeds the price at a larger spot
    by at most [1e-9] times the discounted strike. *)
Lemma price_drop_bounded S1 S2 K T r sigma :
  0 < K -> 0 < T -> 0 < sigma -> 0 < S1 <= S2 ->
  BlackScholes.blackScholesCall S1 K T r sigma
  <= BlackScholes.blackScholesCall S2 K T r sigma
     + K * exp (- r * T) * 0.000000001.
Proof.
  intros HK HT Hs [H1 H2].
  destruct H2 as [H2 | <-].
  - rewrite !price_ratio by lra.
    pose proof (d2_increasing S1 S2 K T r sigma HK HT Hs (conj H1 H2)) as Hd.
    pose proof (sqrt_lt_R0 T HT) as Hq.
    pose proof sqrt2_inv as [S0 _].
    assert (Hw : 0 < sigma * sqrt T / sqrt 2).
    { apply Rmult_lt_0_compat; [apply Rmult_lt_0_compat |]; assumption. }
    assert (Hu : BlackScholes.d2 S1 K T r sigma / sqrt 2
                 <= BlackScholes.d2 S2 K T r sigma / sqrt 2).
    { apply Rmult_le_compat_r; lra. }
    pose proof (ratio_nondecreasing _ _ _ Hw Hu) as Hr.
    assert (HE : 0 < K * exp (- r * T)).
    { apply Rmult_lt_0_compat; [exact HK | apply exp_pos]. }
    set (c := K * exp (- r * T)) in *. clearbody c.
    pos_product c
      (ratio (sigma * sqrt T / sqrt 2)
         (BlackScholes.d2 S2 K T r sigma / sqrt 2) + 0.000000001
       - ratio (sigma * sqrt T / sqrt 2)
           (BlackScholes.d2 S1 K T r sigma / sqrt 2)).
    lra.
  - pose proof (exp_pos (- r * T)).
    pos_product K (exp (- r * T)). lra.
Qed.

End SpotAnalysis.

(** C9, amended: with positive strike, time and volatility the price is
    non-decreasing in the spot up to the error of the approximated
    distribution function: the price at a spot never exceeds the price at
    a larger spot by more than [1e-9] times the sum of the larger spot and
    the discounted strike. *)
Theorem price_nondecreasing_up_to_approximation (S1 S2 K T r sigma : R) :
  0 < K -> 0 < T -> 0 < sigma -> 0 < S1 <= S2 ->
  BlackScholes.blackScholesCall S1 K T r sigma
  <= BlackScholes.blackScholesCall S2 K T r sigma
     + (S2 + K * exp (- r * T)) * 0.000000001.
Proof.
  intros HK HT Hs HS.
  pose proof (price_drop_bounded S1 S2 K T r sigma HK HT Hs HS) as Hd.
  lra.
Qed.

Lemma price_nondecreasing_up_to_approximation_witness :
  0 < 340 /\ 0 < 1 /\ 0 < 0.3 /\ 0 < 339.999999999 <= 340
  /\ BlackScholes.blackScholesCall 339.999999999 340 1 0.045 0.3
     <= BlackScholes.blackScholesCall 340 340 1 0.045 0.3
        + (340 + 340 * exp (- (0.045) * 1)) * 0.000000001.
Proof.
  repeat split; try lra.
  apply (price_nondecreasing_up_to_approximation
           339.999999999 340 340 1 0.045 0.3); lra.
Defined.

(** * Further properties of the pricing primitive *)

Lemma horner_le_sum t : 0 <= t <= 1 -> BlackScholes.horner t <= 0.999999999.
Proof.
  intros [H0 H1].
  unfold BlackScholes.horner, BlackScholes.a1, BlackScholes.a2,
    BlackScholes.a3, BlackScholes.a4, BlackScholes.a5.
  pos_product t t.
  pos_product (t * t) (1 - t).
  pos_product (t * t) (t * t).
  pos_product (1 - t)
    (0.999999999 + 0.745170407 * t + 1.029667143 * (t * t)
     - 0.391746598 * (t * t * t) + 1.061405429 * (t * t * t * t)).
  lra.
Qed.

Lemma y_lower x : 0 <= x -> 0.000000001 <= BlackScholes.y x.
Proof.
  intros Hx. unfold BlackScholes.y. cbv zeta.
  pose proof (t_range x Hx) as [T0 T1].
  pose proof (horner_nonneg _ (conj (Rlt_le _ _ T0) T1)) as H0.
  pose proof (horner_le_sum _ (conj (Rlt_le _ _ T0) T1)) as H1.
  pose proof (exp_neg_square x) as [E0 E1].
  set (h := BlackScholes.horner (1 / (1 + BlackScholes.p * x))) in *.
  set (e := exp (- x * x)) in *. clearbody h e.
  pos_product h (1 - e). lra.
Qed.

Lemma erf_bounds (x : R) :
  -1 <= BlackScholes.erf x <= 1
  /\ (0 <= x -> 0.000000001 <= BlackScholes.erf x)
  /\ (x < 0 -> BlackScholes.erf x <= -0.000000001).
Proof.
  destruct (Rle_lt_dec 0 x) as [H | H].
  - rewrite (erf_nonneg_arg x H).
    pose proof (y_bounds x H) as [_ Y1]. pose proof (y_lower x H) as Y0.
    repeat split; intros; lra.
  - rewrite (erf_neg_arg x H).
    assert (H' : 0 <= - x) by lra.
    pose proof (y_bounds _ H') as [_ Y1]. pose proof (y_lower _ H') as Y0.
    repeat split; intros; lra.
Qed.

(** X1: [erf] takes its values in [[-1, 1]] and stays away from zero: it
    is at least [9e-10] on the non-negative numbers and at most [-9e-10] on
    the negative ones. *)
Theorem erf_range (x : R) :
  -1 <= BlackScholes.erf x <= 1
  /\ (0 <= x -> 0.0000000009 <= BlackScholes.erf x)
  /\ (x < 0 -> BlackScholes.erf x <= -0.0000000009).
Proof.
  destruct (erf_bounds x) as (Hr & Hp & Hn).
  split; [exact Hr | split; intros Hx]; [specialize (Hp Hx) | specialize (Hn Hx)];
    lra.
Qed.

Lemma erf_range_witness :
  0 <= 2 /\ 0.0000000009 <= BlackScholes.erf 2.
Proof.
  split; [lra | apply (proj1 (proj2 (erf_range 2))); lra].
Defined.

Lemma div_sqrt2_sign x :
  (0 <= x -> 0 <= x / sqrt 2) /\ (x < 0 -> x / sqrt 2 < 0).
Proof.
  pose proof sqrt2_inv as [S0 _]. unfold Rdiv. split; intros H.
  - apply Rmult_le_pos; lra.
  - assert (P : 0 < - x * / sqrt 2) by (apply Rmult_lt_0_compat; lra). lra.
Qed.

Lemma standardNormalCDF_bounds (x : R) :
  0 <= BlackScholes.standardNormalCDF x <= 1
  /\ (0 <= x -> 0.5000000005 <= BlackScholes.standardNormalCDF x)
  /\ (x < 0 -> BlackScholes.standardNormalCDF x <= 0.4999999995).
Proof.
  unfold BlackScholes.standardNormalCDF.
  pose proof (erf_bounds (x / sqrt 2)) as (Hr & Rp & Rn).
  destruct (div_sqrt2_sign x) as [Dp Dn].
  split; [lra | split].
  - intros H. specialize (Rp (Dp H)). lra.
  - intros H. specialize (Rn (Dn H)). lra.
Qed.

(** X2: [standardNormalCDF] takes its values in [[0, 1]] and stays away
    from one half: it is at least [0.50000000045] on the non-negative
    numbers and at most [0.49999999955] on the negative ones. *)
Theorem standardNormalCDF_range (x : R) :
  0 <= BlackScholes.standardNormalCDF x <= 1
  /\ (0 <= x -> 0.50000000045 <= BlackScholes.standardNormalCDF x)
  /\ (x < 0 -> BlackScholes.standardNormalCDF x <= 0.49999999955).
Proof.
  destruct (standardNormalCDF_bounds x) as (Hr & Hp & Hn).
  split; [exact Hr | split; intros Hx]; [specialize (Hp Hx) | specialize (Hn Hx)];
    lra.
Qed.

Lemma standardNormalCDF_range_witness :
  -1 < 0 /\ BlackScholes.standardNormalCDF (-1) <= 0.49999999955.
Proof.
  split; [lra | apply (proj2 (proj2 (standardNormalCDF_range (-1)))); lra].
Defined.

Lemma blackScholesCall_le_spot S K T r sigma :
  0 <= S -> 0 <= K -> BlackScholes.blackScholesCall S K T r sigma <= S.
Proof.
  intros HS HK. unfold BlackScholes.blackScholesCall.
  destruct (Rleb T 0).
  - apply Rmax_lub; lra.
  - pose proof (standardNormalCDF_bounds (BlackScholes.d1 S K T r sigma))
      as ([_ U1] & _).
    pose proof (standardNormalCDF_bounds (BlackScholes.d2 S K T r sigma))
      as ([L2 _] & _).
    pose proof (exp_pos (- r * T)) as HE.
    set (c1 := BlackScholes.standardNormalCDF
                 (BlackScholes.d1 S K T r sigma)) in *.
    set (c2 := BlackScholes.standardNormalCDF
                 (BlackScholes.d2 S K T r sigma)) in *.
    set (E := exp (- r * T)) in *. clearbody c1 c2 E.
    pos_product S (1 - c1). pos_product K E. pos_product (K * E) c2. lra.
Qed.

(** X4: for positive spot, strike and volatility the returned price never
    exceeds the spot, whatever the time to expiry and the rate; with
    [T <= 0] it is not negative either. *)
Theorem blackScholesCall_at_most_spot (S K T r sigma : R) :
  0 < S -> 0 < K -> 0 < sigma ->
  BlackScholes.blackScholesCall S K T r sigma <= S
  /\ (T <= 0 -> 0 <= BlackScholes.blackScholesCall S K T r sigma).
Proof.
  intros HS HK _. split.
  - apply blackScholesCall_le_spot; lra.
  - intros HT. unfold BlackScholes.blackScholesCall.
    rewrite (proj2 (Rleb_true T 0) HT). apply Rmax_l.
Qed.

Lemma blackScholesCall_at_most_spot_witness :
  0 < 360 /\ 0 < 340 /\ 0 < 0.6737
  /\ BlackScholes.blackScholesCall 360 340 1 0.045 0.6737 <= 360.
Proof.
  repeat split; try lra.
  apply (blackScholesCall_at_most_spot 360 340 1 0.045 0.6737); lra.
Defined.

(** * Further properties of the scenario projector *)

(** X6: the time passed to the pricing primitive is at least [0.0001]
    years, so every contract is priced by the time-dependent formula, never
    at its intrinsic value; an offset at or after the expiry is priced with
    exactly [0.0001] years. *)
Theorem estPrice_never_intrinsic (cfg : App.config) (d : Z)
    (opt : App.contract) :
  0.0001 <= App.yearsRemaining cfg d
  /\ App.estPrice cfg d opt
     = App.TARGET_PRICE cfg
       * BlackScholes.standardNormalCDF
           (BlackScholes.d1 (App.TARGET_PRICE cfg) (App.strike opt)
              (App.yearsRemaining cfg d) (App.RISK_FREE_RATE cfg)
              (App.targetIv opt))
       - App.strike opt
         * exp (- App.RISK_FREE_RATE cfg * App.yearsRemaining cfg d)
         * BlackScholes.standardNormalCDF
             (BlackScholes.d2 (App.TARGET_PRICE cfg) (App.strike opt)
                (App.yearsRemaining cfg d) (App.RISK_FREE_RATE cfg)
                (App.targetIv opt))
  /\ (App.DAYS_TO_EXPIRY cfg <= IZR d -> App.yearsRemaining cfg d = 0.0001).
Proof.
  assert (H : 0.0001 <= App.yearsRemaining cfg d)
    by (unfold App.yearsRemaining; apply Rmax_r).
  split; [exact H | split].
  - unfold App.estPrice, BlackScholes.blackScholesCall, App.simulatedPrice.
    now rewrite (proj2 (Rleb_false (App.yearsRemaining cfg d) 0)) by lra.
  - intros Hd. unfold App.yearsRemaining, App.daysRemaining.
    rewrite (Rmax_right (App.DAYS_TO_EXPIRY cfg - IZR d) 0) by lra.
    apply Rmax_right. lra.
Qed.

Lemma estPrice_never_intrinsic_witness :
  App.DAYS_TO_EXPIRY
    {| App.CURRENT_PRICE := 340; App.TARGET_PRICE := 360;
       App.RISK_FREE_RATE := 0.045; App.DAYS_TO_EXPIRY := 360 |} <= 360
  /\ App.yearsRemaining
       {| App.CURRENT_PRICE := 340; App.TARGET_PRICE := 360;
          App.RISK_FREE_RATE := 0.045; App.DAYS_TO_EXPIRY := 360 |} 360
     = 0.0001.
Proof.
  split; [simpl; lra |].
  apply (proj2 (proj2 (estPrice_never_intrinsic
    {| App.CURRENT_PRICE := 340; App.TARGET_PRICE := 360;
       App.RISK_FREE_RATE := 0.045; App.DAYS_TO_EXPIRY := 360 |} 360
    App.atmCall))).
  simpl; lra.
Defined.

(** X7: at a retained offset the days remaining are
    [DAYS_TO_EXPIRY - day], not negative; and a later offset never has more
    time remaining than an earlier one. *)
Theorem yearsRemaining_decreases (cfg : App.config) (d d' : Z) :
  (In d (App.scenarios cfg) ->
   App.daysRemaining cfg d = App.DAYS_TO_EXPIRY cfg - IZR d
   /\ 0 <= App.daysRemaining cfg d)
  /\ ((d <= d')%Z -> App.yearsRemaining cfg d' <= App.yearsRemaining cfg d).
Proof.
  split.
  - intros Hd. unfold App.scenarios in Hd. apply filter_In in Hd.
    destruct Hd as [_ Hd]. apply Rleb_true in Hd.
    unfold App.daysRemaining. rewrite Rmax_left by lra. lra.
  - intros Hd. apply IZR_le in Hd.
    unfold App.yearsRemaining, App.daysRemaining.
    apply Rle_max_compat_r.
    apply Rmult_le_compat_r; [lra |].
    apply Rle_max_compat_r. lra.
Qed.

Lemma yearsRemaining_decreases_witness :
  (30 <= 60)%Z
  /\ App.yearsRemaining App.DEFAULT_CONFIG 60
     <= App.yearsRemaining App.DEFAULT_CONFIG 30.
Proof.
  split; [lia |].
  apply (proj2 (yearsRemaining_decreases App.DEFAULT_CONFIG 30 60)). lia.
Defined.

Lemma fold_left_ext {A B} (f g : A -> B -> A) l :
  (forall a b, f a b = g a b) ->
  forall a, fold_left f l a = fold_left g l a.
Proof.
  intros H. induction l as [| b l IH]; intros a; simpl; [reflexivity |].
  now rewrite H, IH.
Qed.

Section Dependencies.

Variable numberToString : R -> string.

Lemma estPrice_fields cfg cfg' d opt :
  App.TARGET_PRICE cfg' = App.TARGET_PRICE cfg ->
  App.RISK_FREE_RATE cfg' = App.RISK_FREE_RATE cfg ->
  App.DAYS_TO_EXPIRY cfg' = App.DAYS_TO_EXPIRY cfg ->
  App.estPrice cfg' d opt = App.estPrice cfg d opt.
Proof.
  intros H1 H2 H3.
  unfold App.estPrice, App.simulatedPrice, App.yearsRemaining,
    App.daysRemaining.
  now rewrite H1, H2, H3.
Qed.

Lemma scenarioStep_fields cfg cfg' sorted d :
  App.TARGET_PRICE cfg' = App.TARGET_PRICE cfg ->
  App.RISK_FREE_RATE cfg' = App.RISK_FREE_RATE cfg ->
  App.DAYS_TO_EXPIRY cfg' = App.DAYS_TO_EXPIRY cfg ->
  App.scenarioStep numberToString cfg' sorted d
  = App.scenarioStep numberToString cfg sorted d.
Proof.
  intros H1 H2 H3. unfold App.scenarioStep, App.simulatedPrice.
  rewrite H1.
  rewrite (fold_left_ext (App.optionStep numberToString cfg' d)
             (App.optionStep numberToString cfg d)); [reflexivity |].
  intros [cp dets] opt.
  unfold App.optionStep, App.detailOf, App.roi, App.profit.
  now rewrite (estPrice_fields cfg cfg' d opt H1 H2 H3).
Qed.

Lemma simulate_fields cfg cfg' options :
  App.TARGET_PRICE cfg' = App.TARGET_PRICE cfg ->
  App.RISK_FREE_RATE cfg' = App.RISK_FREE_RATE cfg ->
  App.DAYS_TO_EXPIRY cfg' = App.DAYS_TO_EXPIRY cfg ->
  App.simulate numberToString cfg' options
  = App.simulate numberToString cfg options.
Proof.
  intros H1 H2 H3. unfold App.simulate, App.calculateProjections.
  assert (E : App.scenarios cfg' = App.scenarios cfg)
    by (unfold App.scenarios; now rewrite H3).
  rewrite E.
  rewrite (map_ext _ _ (fun d => scenarioStep_fields cfg cfg' _ d H1 H2 H3)).
  reflexivity.
Qed.

Lemma insert_map (f : App.contract -> App.contract) a l :
  (forall o, App.strike (f o) = App.strike o) ->
  App.insert (f a) (map f l) = map f (App.insert a l).
Proof.
  intros H. induction l as [| b l IH]; simpl; [reflexivity |].
  rewrite !H. destruct (Rltb 0 (App.strike a - App.strike b)); simpl.
  - now rewrite IH.
  - reflexivity.
Qed.

Lemma sortedOptions_map (f : App.contract -> App.contract) l :
  (forall o, App.strike (f o) = App.strike o) ->
  App.sortedOptions (map f l) = map f (App.sortedOptions l).
Proof.
  intros H. induction l as [| a l IH]; simpl; [reflexivity |].
  now rewrite IH, insert_map.
Qed.

Lemma fold_left_map {A B C} (g : A -> B -> A) (f : C -> B) l : forall a,
  fold_left g (map f l) a = fold_left (fun a c => g a (f c)) l a.
Proof.
  induction l as [| c l IH]; intros a; simpl; [reflexivity | apply IH].
Qed.

Lemma existsb_map {A B} (p : B -> bool) (f : A -> B) l :
  existsb p (map f l) = existsb (fun a => p (f a)) l.
Proof.
  induction l as [| a l IH]; simpl; [reflexivity | now rewrite IH].
Qed.

End Dependencies.

(** X8: the projections do not depend on the current price: two
    configurations with the same target price, rate and days to expiry give
    the same chart series, table and flag, and so a change of the
    [CURRENT_PRICE] input leaves them as they are. *)
Theorem simulate_ignores_current_price (numberToString : R -> string)
    (parseFloat : string -> R) (cfg cfg' : App.config)
    (options : list App.contract) :
  (App.TARGET_PRICE cfg' = App.TARGET_PRICE cfg ->
   App.RISK_FREE_RATE cfg' = App.RISK_FREE_RATE cfg ->
   App.DAYS_TO_EXPIRY cfg' = App.DAYS_TO_EXPIRY cfg ->
   App.simulate numberToString cfg' options
   = App.simulate numberToString cfg options)
  /\ (forall value,
        App.simulate numberToString
          (App.handleConfigChange parseFloat "CURRENT_PRICE" value cfg) options
        = App.simulate numberToString cfg options).
Proof.
  split.
  - apply simulate_fields.
  - intros value. apply simulate_fields; reflexivity.
Qed.

Lemma simulate_ignores_current_price_witness :
  App.TARGET_PRICE App.DEFAULT_CONFIG = 360
  /\ App.simulate App.integerToString
       {| App.CURRENT_PRICE := 100; App.TARGET_PRICE := 360;
          App.RISK_FREE_RATE := 0.045; App.DAYS_TO_EXPIRY := 365 |}
       App.DEFAULT_OPTIONS
     = App.simulate App.integerToString App.DEFAULT_CONFIG App.DEFAULT_OPTIONS.
Proof.
  split; [reflexivity |].
  apply (proj1 (simulate_ignores_current_price App.integerToString
                  (fun _ => 0) App.DEFAULT_CONFIG _ App.DEFAULT_OPTIONS));
    reflexivity.
Defined.

(** X9: the identifier and the Greeks of a contract are display-only: any
    change of the contracts that keeps label, strike, ask and the two
    volatilities leaves the chart series, the table and the flag as they
    are. *)
Theorem simulate_ignores_annotations (numberToString : R -> string)
    (cfg : App.config) (f : App.contract -> App.contract)
    (options : list App.contract) :
  (forall o,
      App.type (f o) = App.type o /\ App.strike (f o) = App.strike o
      /\ App.ask (f o) = App.ask o /\ App.iv (f o) = App.iv o
      /\ App.target_iv (f o) = App.target_iv o) ->
  App.simulate numberToString cfg (map f options)
  = App.simulate numberToString cfg options.
Proof.
  intros H. unfold App.simulate.
  rewrite sortedOptions_map by (intros o; apply H).
  set (sorted := App.sortedOptions options).
  unfold App.calculateProjections.
  assert (Ec : App.crushDetected (map f sorted) = App.crushDetected sorted).
  { unfold App.crushDetected. rewrite existsb_map.
    induction sorted as [| o l IH]; simpl; [reflexivity |].
    rewrite IH. f_equal. unfold App.crushCondition, App.crushThreshold.
    destruct (H o) as (_ & _ & _ & Hi & Ht). now rewrite Hi, Ht. }
  rewrite Ec.
  assert (Es : forall d,
             App.scenarioStep numberToString cfg (map f sorted) d
             = App.scenarioStep numberToString cfg sorted d).
  { intros d. unfold App.scenarioStep. rewrite fold_left_map.
    rewrite (fold_left_ext
               (fun a c => App.optionStep numberToString cfg d a (f c))
               (App.optionStep numberToString cfg d)); [reflexivity |].
    intros [cp dets] o. destruct (H o) as (Hty & Hs & Ha & Hi & Ht).
    unfold App.optionStep, App.detailOf, App.chartKey, App.roi, App.profit,
      App.cost, App.estPrice, App.targetIv.
    now rewrite Hty, Hs, Ha, Hi, Ht. }
  rewrite (map_ext _ _ Es). reflexivity.
Qed.

Lemma simulate_ignores_annotations_witness :
  App.simulate App.integerToString App.DEFAULT_CONFIG
    (map (App.withAnnotations 9 0 0 0) App.DEFAULT_OPTIONS)
  = App.simulate App.integerToString App.DEFAULT_CONFIG App.DEFAULT_OPTIONS.
Proof.
  apply (simulate_ignores_annotations App.integerToString App.DEFAULT_CONFIG
           (App.withAnnotations 9 0 0 0) App.DEFAULT_OPTIONS).
  intros o. repeat split.
Defined.

(** X10: the chart series and the table are parallel: they have one entry
    per retained offset, the [name] of each chart point is the [day] of the
    table row at the same place, and every row has one record per contract. *)
Theorem chart_and_table_aligned (numberToString : R -> string)
    (cfg : App.config) (options : list App.contract) :
  map (App.obj_get "name")
    (App.chartData (App.simulate numberToString cfg options))
  = map (fun r => Some (App.VStr (App.day r)))
      (App.groupedResults (App.simulate numberToString cfg options))
  /\ map App.day (App.groupedResults (App.simulate numberToString cfg options))
     = map App.dayLabel (App.scenarios cfg)
  /\ Forall (fun r => List.length (App.details r) = List.length options)
       (App.groupedResults (App.simulate numberToString cfg options)).
Proof.
  rewrite chartData_eq, groupedResults_eq, !map_map. simpl.
  split; [| split].
  - apply map_ext. intros d.
    rewrite chartFields_get_other; [reflexivity |].
    intros opt _. apply chartKey_not_name.
  - reflexivity.
  - apply Forall_forall. intros r Hr. apply in_map_iff in Hr.
    destruct Hr as (d & <- & _). simpl. rewrite List.length_map.
    symmetry. apply Permutation_length, sortedOptions_perm.
Qed.

Lemma Forall2_map_same {A B C} (P : B -> C -> Prop) (f : A -> B) (g : A -> C) l :
  (forall a, In a l -> P (f a) (g a)) -> Forall2 P (map f l) (map g l).
Proof.
  induction l as [| a l IH]; intros H; simpl; constructor.
  - apply H. now left.
  - apply IH. intros b Hb. apply H. now right.
Qed.

(** X11: when no two contracts share label and strike, the chart and the
    table show the same returns: at every offset, each record of the table
    row has its [roi] string under its own key in the chart point at the
    same place. *)
Theorem chart_agrees_with_table (numberToString : R -> string)
    (cfg : App.config) (options : list App.contract) :
  NoDup (map (App.chartKey numberToString) options) ->
  Forall2
    (fun pt r =>
       Forall
         (fun det =>
            App.obj_get
              (App.d_type det ++ " ($"
                 ++ numberToString (App.d_strike det) ++ ")") pt
            = Some (App.VStr (App.d_roi det)))
         (App.details r))
    (App.chartData (App.simulate numberToString cfg options))
    (App.groupedResults (App.simulate numberToString cfg options)).
Proof.
  intros Hnd. rewrite chartData_eq, groupedResults_eq.
  apply Forall2_map_same. intros d _. cbn [App.details].
  assert (Hnd' : NoDup (map (App.chartKey numberToString)
                          (App.sortedOptions options))).
  { eapply Permutation_NoDup; [| exact Hnd].
    apply Permutation_map, sortedOptions_perm. }
  apply Forall_forall. intros det Hdet. apply in_map_iff in Hdet.
  destruct Hdet as (opt & <- & Hopt).
  unfold App.detailOf. cbn [App.d_type App.d_strike App.d_roi].
  change (App.type opt ++ " ($" ++ numberToString (App.strike opt) ++ ")")
    with (App.chartKey numberToString opt).
  now rewrite chartFields_get, (lastWithKey_NoDup _ opt _ Hnd' Hopt).
Qed.

Lemma chartKeys_default_NoDup :
  NoDup (map (App.chartKey App.integerToString) [App.atmCall]).
Proof.
  simpl. constructor; [intros [] | constructor].
Qed.

Lemma chart_agrees_with_table_witness :
  NoDup (map (App.chartKey App.integerToString) [App.atmCall])
  /\ Forall2
       (fun pt r =>
          Forall
            (fun det =>
               App.obj_get
                 (App.d_type det ++ " ($"
                    ++ App.integerToString (App.d_strike det) ++ ")") pt
               = Some (App.VStr (App.d_roi det)))
            (App.details r))
       (App.chartData
          (App.simulate App.integerToString App.DEFAULT_CONFIG [App.atmCall]))
       (App.groupedResults
          (App.simulate App.integerToString App.DEFAULT_CONFIG [App.atmCall])).
Proof.
  split; [exact chartKeys_default_NoDup |].
  apply (chart_agrees_with_table App.integerToString App.DEFAULT_CONFIG
           [App.atmCall]).
  exact chartKeys_default_NoDup.
Defined.

(** X12: sorting keeps the number of contracts, leaves a list that is
    already in ascending strike order as it is, and so sorting twice is
    sorting once. *)
Theorem sortedOptions_idempotent (options : list App.contract) :
  List.length (App.sortedOptions options) = List.length options
  /\ (StronglySorted App.strikeLe options -> App.sortedOptions options = options)
  /\ App.sortedOptions (App.sortedOptions options) = App.sortedOptions options.
Proof.
  assert (K : forall l, StronglySorted App.strikeLe l -> App.sortedOptions l = l).
  { intros l Hl. apply sorted_unique;
      [apply sortedOptions_sorted | exact Hl
      | intros s; apply sortedOptions_stable]. }
  split; [| split].
  - symmetry. apply Permutation_length, sortedOptions_perm.
  - apply K.
  - apply K, sortedOptions_sorted.
Qed.

Lemma DEFAULT_OPTIONS_sorted : StronglySorted App.strikeLe App.DEFAULT_OPTIONS.
Proof.
  unfold App.DEFAULT_OPTIONS, App.strikeLe.
  repeat constructor; simpl; lra.
Qed.

Lemma sortedOptions_idempotent_witness :
  StronglySorted App.strikeLe App.DEFAULT_OPTIONS
  /\ App.sortedOptions App.DEFAULT_OPTIONS = App.DEFAULT_OPTIONS.
Proof.
  split; [exact DEFAULT_OPTIONS_sorted |].
  apply (proj1 (proj2 (sortedOptions_idempotent App.DEFAULT_OPTIONS))).
  exact DEFAULT_OPTIONS_sorted.
Defined.

Lemma existsb_Permutation {A} (p : A -> bool) l l' :
  Permutation l l' -> existsb p l = existsb p l'.
Proof.
  intros H. induction H; simpl.
  - reflexivity.
  - now rewrite IHPermutation.
  - now rewrite !orb_assoc, (orb_comm (p y)).
  - congruence.
Qed.

(** X13: the flag depends on the contracts only, not on the configuration or
    on their order; it is the disjunction of the flags of the parts of a
    list; and it is false when no contract has a target volatility. *)
Theorem crush_flag_of_parts (numberToString : R -> string)
    (cfg cfg' : App.config) (options options' : list App.contract) :
  (Permutation options options' ->
   App.isIvCrush (App.simulate numberToString cfg' options')
   = App.isIvCrush (App.simulate numberToString cfg options))
  /\ App.isIvCrush (App.simulate numberToString cfg (options ++ options'))
     = (App.isIvCrush (App.simulate numberToString cfg options)
        || App.isIvCrush (App.simulate numberToString cfg' options'))%bool
  /\ ((forall opt, In opt options -> App.target_iv opt = None) ->
      App.isIvCrush (App.simulate numberToString cfg options) = false).
Proof.
  unfold App.simulate, App.calculateProjections, App.crushDetected; simpl.
  assert (E : forall l,
             existsb App.crushCondition (App.sortedOptions l)
             = existsb App.crushCondition l).
  { intros l. symmetry. apply existsb_Permutation, sortedOptions_perm. }
  rewrite !E. split; [| split].
  - intros H. symmetry. now apply existsb_Permutation.
  - apply existsb_app.
  - intros H. apply not_true_is_false. intros Hc.
    apply existsb_exists in Hc. destruct Hc as (opt & Hin & Hc).
    unfold App.crushCondition in Hc. now rewrite (H opt Hin) in Hc.
Qed.

Lemma crush_flag_of_parts_witness :
  (forall opt, In opt App.DEFAULT_OPTIONS -> App.target_iv opt = None)
  /\ App.isIvCrush
       (App.simulate App.integerToString App.DEFAULT_CONFIG App.DEFAULT_OPTIONS)
     = false.
Proof.
  assert (H : forall opt,
             In opt App.DEFAULT_OPTIONS -> App.target_iv opt = None).
  { intros opt [<- | [<- | [<- | []]]]; reflexivity. }
  split; [exact H |].
  exact (proj2 (proj2 (crush_flag_of_parts App.integerToString
                         App.DEFAULT_CONFIG App.DEFAULT_CONFIG
                         App.DEFAULT_OPTIONS [])) H).
Defined.

(** * Further properties of the rendering *)

Lemma allDigits_app a b :
  App.allDigits (a ++ b) = (App.allDigits a && App.allDigits b)%bool.
Proof.
  induction a as [| c a IH]; simpl; [reflexivity |].
  now rewrite IH, andb_assoc.
Qed.

Lemma string_of_uint_digits d :
  App.allDigits (NilEmpty.string_of_uint d) = true.
Proof. induction d; simpl; auto. Qed.

Lemma digits_allDigits n :
  App.allDigits (App.digits n) = true /\ App.digits n <> EmptyString.
Proof.
  unfold App.digits, NilZero.string_of_uint.
  destruct (N.to_uint (Z.to_N n)) as [| u | u | u | u | u | u | u | u | u | u] eqn:E;
    (split; [try reflexivity | try discriminate]);
    rewrite <- E in *; try apply string_of_uint_digits;
    rewrite E; simpl; discriminate.
Qed.

Lemma digits_one n :
  (0 <= n < 10)%Z ->
  exists c, App.digits n = String c EmptyString /\ App.isDigit c = true.
Proof.
  intros H. rewrite <- (Z2Nat.id n) by lia.
  assert (Hk : (Z.to_nat n < 10)%nat) by lia.
  generalize dependent (Z.to_nat n). clear H. intros k Hk.
  do 10 (destruct k as [| k]; [eexists; split; reflexivity |]).
  lia.
Qed.

Lemma fixed2_format neg n :
  exists a c1 c2,
    App.fixed2 neg n
    = (if neg then "-" else EmptyString) ++ a ++ "."
        ++ String c1 (String c2 EmptyString)
    /\ a <> EmptyString /\ App.allDigits a = true
    /\ App.isDigit c1 = true /\ App.isDigit c2 = true.
Proof.
  destruct (digits_one (n / 10 mod 10)%Z) as (c1 & E1 & D1);
    [apply Z.mod_pos_bound; lia |].
  destruct (digits_one (n mod 10)%Z) as (c2 & E2 & D2);
    [apply Z.mod_pos_bound; lia |].
  destruct (digits_allDigits (n / 100)%Z) as [Da Na].
  exists (App.digits (n / 100)%Z), c1, c2.
  unfold App.fixed2. rewrite E1, E2. repeat split; assumption.
Qed.

(** X14: a number below [10^21] in absolute value is rendered as an
    optional minus sign, a non-empty string of decimal digits, a point and
    exactly two decimal digits. *)
Theorem toFixed2_format (numberToString : R -> string) (x : R) :
  Rabs x < 10 ^ 21 ->
  exists a c1 c2,
    App.toFixed2 numberToString x
    = (if Rltb x 0 then "-" else EmptyString) ++ a ++ "."
        ++ String c1 (String c2 EmptyString)
    /\ a <> EmptyString /\ App.allDigits a = true
    /\ App.isDigit c1 = true /\ App.isDigit c2 = true.
Proof.
  intros Hx. destruct (toFixed2_rounds numberToString x Hx) as (n & _ & _ & E).
  rewrite E. apply fixed2_format.
Qed.

Lemma toFixed2_format_witness :
  Rabs (-79.144) < 10 ^ 21
  /\ exists a c1 c2,
       App.toFixed2 App.integerToString (-79.144)
       = (if Rltb (-79.144) 0 then "-" else EmptyString) ++ a ++ "."
           ++ String c1 (String c2 EmptyString)
       /\ a <> EmptyString /\ App.allDigits a = true
       /\ App.isDigit c1 = true /\ App.isDigit c2 = true.
Proof.
  assert (H : Rabs (-79.144) < 10 ^ 21).
  { rewrite Rabs_left by lra. simpl. lra. }
  split; [exact H |].
  exact (toFixed2_format App.integerToString (-79.144) H).
Defined.

(** X15: a loss is rendered as the gain of the same size after a minus
    sign: for positive [x], [toFixed2(-x)] is ["-"] followed by
    [toFixed2(x)], so that halves are rounded away from zero on both
    sides. *)
Theorem toFixed2_opp (numberToString : R -> string) (x : R) :
  0 < x ->
  App.toFixed2 numberToString (- x)
  = "-" ++ App.toFixed2 numberToString x.
Proof.
  intros Hx. unfold App.toFixed2.
  rewrite (proj2 (Rltb_true (- x) 0)) by lra.
  rewrite (proj2 (Rltb_false x 0)) by lra.
  rewrite Ropp_involutive.
  destruct (Rleb (10 ^ 21) x); reflexivity.
Qed.

Lemma toFixed2_opp_witness :
  0 < 12.345
  /\ App.toFixed2 App.integerToString (- (12.345))
     = "-" ++ App.toFixed2 App.integerToString 12.345.
Proof.
  split; [lra | apply (toFixed2_opp App.integerToString 12.345); lra].
Defined.

(** * Further properties of profit and return *)

(** X16: for a contract bought at a positive premium and priced at a
    positive volatility, with positive target price and strike and a rate
    that is not negative, the profit is at most [targetPrice - premium] and
    the return at most [(targetPrice - premium) / premium * 100]; the
    return is not negative when the profit is not, and not positive when
    the profit is not. *)
Theorem roi_bounded_by_target (cfg : App.config) (d : Z) (opt : App.contract) :
  0 < App.ask opt -> 0 < App.TARGET_PRICE cfg -> 0 < App.strike opt ->
  0 < App.targetIv opt -> 0 <= App.RISK_FREE_RATE cfg ->
  App.profit cfg d opt <= App.TARGET_PRICE cfg - App.ask opt
  /\ App.roi cfg d opt
     <= (App.TARGET_PRICE cfg - App.ask opt) / App.ask opt * 100
  /\ (0 <= App.profit cfg d opt -> 0 <= App.roi cfg d opt)
  /\ (App.profit cfg d opt <= 0 -> App.roi cfg d opt <= 0).
Proof.
  intros Ha Ht Hk _ _.
  assert (Hp : App.profit cfg d opt <= App.TARGET_PRICE cfg - App.ask opt).
  { unfold App.profit, App.cost, App.estPrice, App.simulatedPrice.
    pose proof (blackScholesCall_le_spot (App.TARGET_PRICE cfg)
                  (App.strike opt) (App.yearsRemaining cfg d)
                  (App.RISK_FREE_RATE cfg) (App.targetIv opt)).
    lra. }
  assert (Hi : 0 < / App.ask opt) by now apply Rinv_0_lt_compat.
  assert (Er : App.roi cfg d opt
               = App.profit cfg d opt * (/ App.ask opt * 100)).
  { unfold App.roi, App.cost.
    rewrite (proj2 (Rltb_true 0 (App.ask opt)) Ha). unfold Rdiv. ring. }
  assert (Hc : 0 < / App.ask opt * 100) by lra.
  set (c := / App.ask opt * 100) in *.
  set (pr := App.profit cfg d opt) in *.
  split; [exact Hp | split; [| split]].
  - rewrite Er. unfold Rdiv.
    replace ((App.TARGET_PRICE cfg - App.ask opt) * / App.ask opt * 100)
      with ((App.TARGET_PRICE cfg - App.ask opt) * c) by (unfold c; ring).
    apply Rmult_le_compat_r; lra.
  - intros H. rewrite Er. apply Rmult_le_pos; lra.
  - intros H. rewrite Er.
    assert (P : 0 <= - pr * c) by (apply Rmult_le_pos; lra). lra.
Qed.

Lemma roi_bounded_by_target_witness :
  0 < App.ask App.atmCall /\ 0 < App.TARGET_PRICE App.DEFAULT_CONFIG
  /\ 0 < App.strike App.atmCall /\ 0 < App.targetIv App.atmCall
  /\ 0 <= App.RISK_FREE_RATE App.DEFAULT_CONFIG
  /\ App.profit App.DEFAULT_CONFIG 30 App.atmCall
     <= App.TARGET_PRICE App.DEFAULT_CONFIG - App.ask App.atmCall.
Proof.
  assert (H1 : 0 < App.ask App.atmCall) by (simpl; lra).
  assert (H2 : 0 < App.TARGET_PRICE App.DEFAULT_CONFIG) by (simpl; lra).
  assert (H3 : 0 < App.strike App.atmCall) by (simpl; lra).
  assert (H4 : 0 < App.targetIv App.atmCall)
    by (unfold App.targetIv; simpl; lra).
  assert (H5 : 0 <= App.RISK_FREE_RATE App.DEFAULT_CONFIG) by (simpl; lra).
  repeat split; try assumption.
  exact (proj1 (roi_bounded_by_target App.DEFAULT_CONFIG 30 App.atmCall
                  H1 H2 H3 H4 H5)).
Defined.

(** * Properties of the handlers *)

Lemma handleTargetIvChange_fields parseFloat i value opt :
  let opt' :=
    if Z.eqb (App.id opt) i
    then App.setTargetIv (App.storedValue parseFloat value) opt else opt in
  App.id opt' = App.id opt /\ App.type opt' = App.type opt
  /\ App.strike opt' = App.strike opt /\ App.ask opt' = App.ask opt
  /\ App.iv opt' = App.iv opt.
Proof.
  cbv zeta. destruct (Z.eqb (App.id opt) i); repeat split.
Qed.

(** X17: a change of the target volatility of the contract [i] keeps the
    number, the order and every other field of the contracts, leaves the
    contracts with another identifier as they are, and commutes with the
    sort: it never reorders the contracts. *)
Theorem handleTargetIvChange_keeps_order (parseFloat : string -> R)
    (i : Z) (value : string) (prev : list App.contract) :
  map App.id (App.handleTargetIvChange parseFloat i value prev)
  = map App.id prev
  /\ map App.strike (App.handleTargetIvChange parseFloat i value prev)
     = map App.strike prev
  /\ (forall n opt,
        nth_error prev n = Some opt -> App.id opt <> i ->
        nth_error (App.handleTargetIvChange parseFloat i value prev) n
        = Some opt)
  /\ App.sortedOptions (App.handleTargetIvChange parseFloat i value prev)
     = App.handleTargetIvChange parseFloat i value (App.sortedOptions prev).
Proof.
  unfold App.handleTargetIvChange. split; [| split; [| split]].
  - rewrite map_map. apply map_ext. intros opt.
    apply (handleTargetIvChange_fields parseFloat i value opt).
  - rewrite map_map. apply map_ext. intros opt.
    apply (handleTargetIvChange_fields parseFloat i value opt).
  - intros n opt Hn Hi. rewrite nth_error_map, Hn. simpl.
    apply Z.eqb_neq in Hi. now rewrite Hi.
  - apply sortedOptions_map. intros opt.
    apply (handleTargetIvChange_fields parseFloat i value opt).
Qed.

Lemma handleTargetIvChange_keeps_order_witness :
  nth_error App.DEFAULT_OPTIONS 0 = Some App.deepItmCall
  /\ App.id App.deepItmCall <> 2%Z
  /\ nth_error
       (App.handleTargetIvChange (fun _ => 0.45) 2 "0.45" App.DEFAULT_OPTIONS) 0
     = Some App.deepItmCall.
Proof.
  split; [reflexivity | split; [discriminate |]].
  apply (proj1 (proj2 (proj2 (handleTargetIvChange_keeps_order
                                (fun _ => 0.45) 2 "0.45" App.DEFAULT_OPTIONS)))).
  - reflexivity.
  - discriminate.
Defined.

(** X18: after the target volatility input of the contract [i] is emptied,
    every contract with that identifier is priced with its current
    volatility and does not raise the flag; after another text is entered,
    its target volatility is the parsed number. *)
Theorem handleTargetIvChange_stores (parseFloat : string -> R)
    (i : Z) (value : string) (prev : list App.contract) (opt : App.contract) :
  In opt (App.handleTargetIvChange parseFloat i value prev) ->
  App.id opt = i ->
  (value = EmptyString ->
   App.target_iv opt = None /\ App.targetIv opt = App.iv opt
   /\ App.crushCondition opt = false)
  /\ (value <> EmptyString -> App.target_iv opt = Some (parseFloat value)).
Proof.
  intros Hin Hi. unfold App.handleTargetIvChange in Hin.
  apply in_map_iff in Hin. destruct Hin as (o & E & _).
  assert (Ho : App.id o = i).
  { rewrite <- Hi, <- E. destruct (Z.eqb (App.id o) i); reflexivity. }
  apply Z.eqb_eq in Ho. rewrite Ho in E. subst opt.
  unfold App.storedValue, App.targetIv, App.crushCondition. simpl. split.
  - intros ->. simpl. repeat split.
  - intros Hv. apply String.eqb_neq in Hv. now rewrite Hv.
Qed.

Lemma handleTargetIvChange_stores_witness :
  In (App.setTargetIv None App.crushedCall)
     (App.handleTargetIvChange (fun _ => 0) 4 EmptyString [App.crushedCall])
  /\ App.id (App.setTargetIv None App.crushedCall) = 4%Z
  /\ App.targetIv (App.setTargetIv None App.crushedCall)
     = App.iv (App.setTargetIv None App.crushedCall).
Proof.
  assert (H : In (App.setTargetIv None App.crushedCall)
     (App.handleTargetIvChange (fun _ => 0) 4 EmptyString [App.crushedCall]))
    by (now left).
  split; [exact H | split; [reflexivity |]].
  exact (proj1 (proj2 (proj1 (handleTargetIvChange_stores (fun _ => 0) 4
    EmptyString [App.crushedCall] _ H eq_refl) eq_refl))).
Defined.

Lemma handleConfigChange_cases parseFloat name value prev :
  (name = "CURRENT_PRICE"
   /\ App.handleConfigChange parseFloat name value prev
      = {| App.CURRENT_PRICE := parseFloat value;
           App.TARGET_PRICE := App.TARGET_PRICE prev;
           App.RISK_FREE_RATE := App.RISK_FREE_RATE prev;
           App.DAYS_TO_EXPIRY := App.DAYS_TO_EXPIRY prev |})
  \/ (name = "TARGET_PRICE"
      /\ App.handleConfigChange parseFloat name value prev
         = {| App.CURRENT_PRICE := App.CURRENT_PRICE prev;
              App.TARGET_PRICE := parseFloat value;
              App.RISK_FREE_RATE := App.RISK_FREE_RATE prev;
              App.DAYS_TO_EXPIRY := App.DAYS_TO_EXPIRY prev |})
  \/ (name = "RISK_FREE_RATE"
      /\ App.handleConfigChange parseFloat name value prev
         = {| App.CURRENT_PRICE := App.CURRENT_PRICE prev;
              App.TARGET_PRICE := App.TARGET_PRICE prev;
              App.RISK_FREE_RATE := parseFloat value;
              App.DAYS_TO_EXPIRY := App.DAYS_TO_EXPIRY prev |})
  \/ (name = "DAYS_TO_EXPIRY"
      /\ App.handleConfigChange parseFloat name value prev
         = {| App.CURRENT_PRICE := App.CURRENT_PRICE prev;
              App.TARGET_PRICE := App.TARGET_PRICE prev;
              App.RISK_FREE_RATE := App.RISK_FREE_RATE prev;
              App.DAYS_TO_EXPIRY := parseFloat value |})
  \/ (name <> "CURRENT_PRICE" /\ name <> "TARGET_PRICE"
      /\ name <> "RISK_FREE_RATE" /\ name <> "DAYS_TO_EXPIRY"
      /\ App.handleConfigChange parseFloat name value prev = prev).
Proof.
  unfold App.handleConfigChange. cbv zeta.
  destruct (String.eqb name "CURRENT_PRICE") eqn:E1;
    [apply String.eqb_eq in E1; now left | apply String.eqb_neq in E1].
  destruct (String.eqb name "TARGET_PRICE") eqn:E2;
    [apply String.eqb_eq in E2; right; now left | apply String.eqb_neq in E2].
  destruct (String.eqb name "RISK_FREE_RATE") eqn:E3;
    [apply String.eqb_eq in E3; do 2 right; now left
    | apply String.eqb_neq in E3].
  destruct (String.eqb name "DAYS_TO_EXPIRY") eqn:E4;
    [apply String.eqb_eq in E4; do 3 right; now left
    | apply String.eqb_neq in E4].
  do 4 right. repeat split; assumption.
Qed.

(** X19: a change of a configuration input overwrites one field: the last
    of two changes of the same input wins, and changes of two different
    inputs give the same configuration in either order. *)
Theorem handleConfigChange_overwrites (parseFloat : string -> R)
    (name name' value value' : string) (prev : App.config) :
  App.handleConfigChange parseFloat name value'
    (App.handleConfigChange parseFloat name value prev)
  = App.handleConfigChange parseFloat name value' prev
  /\ (name <> name' ->
      App.handleConfigChange parseFloat name value
        (App.handleConfigChange parseFloat name' value' prev)
      = App.handleConfigChange parseFloat name' value'
          (App.handleConfigChange parseFloat name value prev)).
Proof.
  split.
  - destruct (handleConfigChange_cases parseFloat name value prev)
      as [[-> E] | [[-> E] | [[-> E] | [[-> E] | (N1 & N2 & N3 & N4 & E)]]]];
      rewrite E; try reflexivity.
  - intros Hn.
    destruct (handleConfigChange_cases parseFloat name value prev)
      as [[-> E] | [[-> E] | [[-> E] | [[-> E] | (N1 & N2 & N3 & N4 & E)]]]];
    destruct (handleConfigChange_cases parseFloat name' value' prev)
      as [[-> E'] | [[-> E'] | [[-> E'] | [[-> E']
                                          | (N1' & N2' & N3' & N4' & E')]]]];
      try congruence; rewrite E, E'; try reflexivity;
      unfold App.handleConfigChange; cbv zeta;
      repeat match goal with
      | H : ?n <> ?s |- context [String.eqb ?n ?s] =>
          rewrite (proj2 (String.eqb_neq n s) H)
      end; try reflexivity.
Qed.

Lemma handleConfigChange_overwrites_witness :
  "TARGET_PRICE" <> "DAYS_TO_EXPIRY"
  /\ App.handleConfigChange (fun _ => 400) "TARGET_PRICE" "400"
       (App.handleConfigChange (fun _ => 400) "DAYS_TO_EXPIRY" "400"
          App.DEFAULT_CONFIG)
     = App.handleConfigChange (fun _ => 400) "DAYS_TO_EXPIRY" "400"
         (App.handleConfigChange (fun _ => 400) "TARGET_PRICE" "400"
            App.DEFAULT_CONFIG).
Proof.
  split; [discriminate |].
  apply (proj2 (handleConfigChange_overwrites (fun _ => 400)
                  "TARGET_PRICE" "DAYS_TO_EXPIRY" "400" "400"
                  App.DEFAULT_CONFIG)).
  discriminate.
Defined.

(** X20: the retained offsets and the labels of the table rows depend on
    the days to expiry only, and the flag on no configuration input: a
    change of any other input than [DAYS_TO_EXPIRY] keeps the offsets and
    the row labels, and a change of any input keeps the flag. *)
Theorem handleConfigChange_keeps_offsets (numberToString : R -> string)
    (parseFloat : string -> R) (name value : string)
    (cfg : App.config) (options : list App.contract) :
  (name <> "DAYS_TO_EXPIRY" ->
   App.scenarios (App.handleConfigChange parseFloat name value cfg)
   = App.scenarios cfg
   /\ map App.day
        (App.groupedResults
           (App.simulate numberToString
              (App.handleConfigChange parseFloat name value cfg) options))
      = map App.day
          (App.groupedResults (App.simulate numberToString cfg options)))
  /\ App.isIvCrush
       (App.simulate numberToString
          (App.handleConfigChange parseFloat name value cfg) options)
     = App.isIvCrush (App.simulate numberToString cfg options).
Proof.
  split; [| reflexivity].
  intros Hn.
  assert (E : App.scenarios (App.handleConfigChange parseFloat name value cfg)
              = App.scenarios cfg).
  { destruct (handleConfigChange_cases parseFloat name value cfg)
      as [[_ E] | [[_ E] | [[_ E] | [[-> _] | (_ & _ & _ & _ & E)]]]];
      [rewrite E; reflexivity .. | contradiction | rewrite E; reflexivity]. }
  split; [exact E |].
  rewrite !groupedResults_eq, !map_map. simpl. now rewrite E.
Qed.

Lemma handleConfigChange_keeps_offsets_witness :
  "TARGET_PRICE" <> "DAYS_TO_EXPIRY"
  /\ App.scenarios
       (App.handleConfigChange (fun _ => 400) "TARGET_PRICE" "400"
          App.DEFAULT_CONFIG)
     = App.scenarios App.DEFAULT_CONFIG.
Proof.
  split; [discriminate |].
  apply (proj1 (handleConfigChange_keeps_offsets App.integerToString
                  (fun _ => 400) "TARGET_PRICE" "400" App.DEFAULT_CONFIG [])).
  discriminate.
Defined.



(** * The number of scenarios *)

Ltac count_scenarios k :=
  unfold App.scenarios, App.scenarioDays; simpl filter;
  rbool; simpl List.length;
  match goal with
  | |- context [Int_part ?r] => rewrite (Int_part_eq r k) by (simpl; lra)
  end;
  reflexivity.

(** X22: with [DAYS_TO_EXPIRY >= 0] the number of retained offsets, of
    chart points and of table rows is the number of whole 30-day periods
    before expiry, at most 12. *)
Theorem scenarios_count (numberToString : R -> string)
    (cfg : App.config) (options : list App.contract) :
  0 <= App.DAYS_TO_EXPIRY cfg ->
  List.length (App.scenarios cfg)
  = Z.to_nat (Z.min 12 (Int_part (App.DAYS_TO_EXPIRY cfg / 30)))
  /\ List.length (App.chartData (App.simulate numberToString cfg options))
     = List.length (App.scenarios cfg)
  /\ List.length (App.groupedResults (App.simulate numberToString cfg options))
     = List.length (App.scenarios cfg).
Proof.
  intros H0. split.
  - set (D := App.DAYS_TO_EXPIRY cfg) in *.
    assert (E : App.scenarios cfg
                = filter (fun day => Rleb (IZR day) D) App.scenarioDays)
      by reflexivity.
    rewrite E. clear E. clearbody D.
    destruct (Rlt_le_dec D 30); [count_scenarios 0%Z |].
    destruct (Rlt_le_dec D 60); [count_scenarios 1%Z |].
    destruct (Rlt_le_dec D 90); [count_scenarios 2%Z |].
    destruct (Rlt_le_dec D 120); [count_scenarios 3%Z |].
    destruct (Rlt_le_dec D 150); [count_scenarios 4%Z |].
    destruct (Rlt_le_dec D 180); [count_scenarios 5%Z |].
    destruct (Rlt_le_dec D 210); [count_scenarios 6%Z |].
    destruct (Rlt_le_dec D 240); [count_scenarios 7%Z |].
    destruct (Rlt_le_dec D 270); [count_scenarios 8%Z |].
    destruct (Rlt_le_dec D 300); [count_scenarios 9%Z |].
    destruct (Rlt_le_dec D 330); [count_scenarios 10%Z |].
    destruct (Rlt_le_dec D 360); [count_scenarios 11%Z |].
    unfold App.scenarioDays; simpl filter. rbool. simpl List.length.
    destruct (base_Int_part (D / 30)) as [_ B].
    assert (Hi : 11 < IZR (Int_part (D / 30))) by lra.
    apply lt_IZR in Hi. rewrite Z.min_l by lia. reflexivity.
  - rewrite chartData_eq, groupedResults_eq, !List.length_map. split; reflexivity.
Qed.

Lemma scenarios_count_witness :
  0 <= App.DAYS_TO_EXPIRY App.DEFAULT_CONFIG
  /\ List.length
       (App.chartData
          (App.simulate App.integerToString App.DEFAULT_CONFIG
             App.DEFAULT_OPTIONS))
     = List.length (App.scenarios App.DEFAULT_CONFIG).
Proof.
  split; [simpl; lra |].
  apply (proj1 (proj2 (scenarios_count App.integerToString App.DEFAULT_CONFIG
                         App.DEFAULT_OPTIONS ltac:(simpl; lra)))).
Defined.
